(** * Email-to-user resolution (sentry.auth.email)

    A shallow embedding of [src/sentry/auth/email.py]: the candidate
    records, the metrics sink and the organization service as an explicit
    world, Python exceptions as a raised outcome, and the resolver's step
    loop as a recursion over the list of step classes. *)

From stdpp Require Import gmap strings list pretty.

Local Open Scope Z_scope.
Local Open Scope string_scope.
Local Open Scope list_scope.

(** ** Data model *)

(** The model classes are imported by [email.py], not defined in it; each is
    modelled with the fields the resolver reads. *)

Module User.
(** Modelled from the spec: [sentry.users.models.user.User], the account; the
    resolver reads its identifier [id] only. *)
Record t : Type := mk { id : Z }.
End User.

Module Organization.
(** Modelled from the spec: [sentry.models.organization.Organization], the
    organization identity; [id] is what the membership lookup is given. *)
Record t : Type := mk { id : Z }.
End Organization.

Module UserEmail.
(** Modelled from the spec: [sentry.models.useremail.UserEmail], a candidate:
    the owning account, the verification flag and the primary-address flag. *)
Record t : Type := mk { user : User.t; is_verified : bool; primary : bool }.

(** Modelled from the spec: the foreign key column [user_id], the identifier
    of the owning account. *)
Definition user_id (ue : t) : Z := User.id (user ue).

(** Modelled from the spec: [UserEmail.is_primary()], whether this address is
    the primary address of its account. *)
Definition is_primary (ue : t) : bool := primary ue.
End UserEmail.

Module MemberSummary.
(** Modelled from the spec: one entry of the answer of
    [organization_service.get_member_summaries_by_ids], an account that
    belongs to the organization; [user_id] is the only field read. *)
Record t : Type := mk { user_id : Z }.
End MemberSummary.

(** ** Exceptions, outcomes and the world *)

Inductive exn : Type :=
| ValueError
| AmbiguousUserFromEmail (email : string) (users : list User.t)
| RpcException (msg : string).

Inductive outcome (A : Type) : Type :=
| Return (a : A)
| Raise (e : exn).
Arguments Return {A} a.
Arguments Raise {A} e.

(** What a call leaves behind: the counters handed to [metrics.incr], oldest
    first, and the arguments of every organization service call. *)
Record World : Type := mkWorld {
  metrics : list string;
  rpc_calls : list (Z * list Z)
}.

Definition M (A : Type) : Type := World → outcome A * World.

Definition ret {A} (a : A) : M A := λ w, (Return a, w).
Definition raise {A} (e : exn) : M A := λ w, (Raise e, w).
Definition bind {A B} (m : M A) (k : A → M B) : M B :=
  λ w, match m w with
       | (Return a, w') => k a w'
       | (Raise e, w') => (Raise e, w')
       end.

Declare Scope py_scope.
Delimit Scope py_scope with py.
Notation "'let*' x := m 'in' k" := (bind m (λ x, k))
  (at level 10, x name, m at level 100, k at level 200) : py_scope.
Notation "'exec' m 'in' k" := (bind m (λ _, k))
  (at level 10, m at level 100, k at level 200) : py_scope.
Local Open Scope py_scope.

(** Modelled from the spec: [metrics.incr(name, sample_rate=1.0)] of
    [sentry.utils.metrics], a fire-and-forget increment of one counter. *)
Definition metrics_incr (name : string) : M unit :=
  λ w, (Return (), mkWorld (metrics w ++ [name]) (rpc_calls w)).

(** The answer of the organization service to one call. [RpcFail msg] is the
    call raising, whatever the class of what it raises; the resolver has no
    handler around the call, and what comes out of it is kept apart from the
    exceptions [email.py] raises itself as [RpcException msg]. *)
Inductive rpc_result : Type :=
| RpcOk (member_summaries : list MemberSummary.t)
| RpcFail (msg : string).

(** [_EmailResolver]: a dataclass of the address and the optional
    organization. *)
Record _EmailResolver : Type := mk_EmailResolver {
  email : string;
  organization : option Organization.t
}.

(** [_EmailResolver.ResolutionStep]: the abstract step class, as the pair of
    its methods, each receiving [self.parent]. *)
Record ResolutionStep : Type := mkStep {
  apply : _EmailResolver → list UserEmail.t → M (list UserEmail.t);
  if_conclusive : _EmailResolver → list UserEmail.t → UserEmail.t → M unit
}.

Section resolver.
(** The organization service and the candidate query are the two
    collaborators the module reaches for. *)
Variable get_member_summaries_by_ids : Z → list Z → rpc_result.
Variable UserEmail_objects_filter : string → list UserEmail.t.

(** [organization_service.get_member_summaries_by_ids(organization_id=...,
    user_ids=...)]: the call is recorded; a failure is raised. *)
Definition organization_service_get_member_summaries_by_ids
    (organization_id : Z) (user_ids : list Z) : M (list MemberSummary.t) :=
  λ w,
    let w' := mkWorld (metrics w) (rpc_calls w ++ [(organization_id, user_ids)]) in
    match get_member_summaries_by_ids organization_id user_ids with
    | RpcOk member_summaries => (Return member_summaries, w')
    | RpcFail msg => (Raise (RpcException msg), w')
    end.

Definition IsVerified : ResolutionStep := {|
  apply _ candidates :=
    ret (filter (λ ue, UserEmail.is_verified ue = true) candidates);
  if_conclusive _ _ _ :=
    metrics_incr "auth.email_resolution.by_verification"
|}.

Definition HasOrgMembership : ResolutionStep := {|
  apply parent candidates :=
    match organization parent with
    | None => ret []
    | Some org =>
        let candidate_ids := UserEmail.user_id <$> candidates in
        let* member_summaries :=
          organization_service_get_member_summaries_by_ids
            (Organization.id org) candidate_ids in
        let users_in_org : gset Z :=
          list_to_set (MemberSummary.user_id <$> member_summaries) in
        ret (filter (λ ue, UserEmail.user_id ue ∈ users_in_org) candidates)
    end;
  if_conclusive _ _ _ :=
    metrics_incr "auth.email_resolution.by_org_membership"
|}.

Definition IsPrimary : ResolutionStep := {|
  apply _ candidates :=
    ret (filter (λ ue, UserEmail.is_primary ue = true) candidates);
  if_conclusive _ _ _ :=
    metrics_incr "auth.email_resolution.by_primary_email"
|}.

Definition get_steps (self : _EmailResolver) : list ResolutionStep :=
  [IsVerified; HasOrgMembership; IsPrimary].

(** [_EmailResolver.if_inconclusive] *)
Definition if_inconclusive (self : _EmailResolver)
    (remaining_candidates : list UserEmail.t) : M unit :=
  metrics_incr "auth.email_resolution.no_resolution".

(** One pass through the body of the [for] loop of [resolve]: [inl] is the
    [return] inside the loop, [inr] the value of [candidates] the next
    iteration starts from. *)
Definition loop_body (self : _EmailResolver) (step : ResolutionStep)
    (candidates : list UserEmail.t) : M (User.t + list UserEmail.t) :=
  let last_candidates := candidates in
  let* candidates := apply step self candidates in
  match candidates with
  | [choice] =>
      exec if_conclusive step self last_candidates choice in
      ret (inl (UserEmail.user choice))
  | [] => ret (inr last_candidates)
  | _ => ret (inr candidates)
  end.

(** The [for step_cls in self.get_steps()] loop. *)
Fixpoint for_steps (self : _EmailResolver) (steps : list ResolutionStep)
    (candidates : list UserEmail.t) : M (User.t + list UserEmail.t) :=
  match steps with
  | [] => ret (inr candidates)
  | step :: steps' =>
      let* r := loop_body self step candidates in
      match r with
      | inl u => ret (inl u)
      | inr candidates' => for_steps self steps' candidates'
      end
  end.

(** [_EmailResolver.resolve] *)
Definition resolve (self : _EmailResolver) (candidates : list UserEmail.t)
    : M User.t :=
  match candidates with
  | [] => raise ValueError
  | [unique_email] => ret (UserEmail.user unique_email)
  | _ =>
      let* r := for_steps self (get_steps self) candidates in
      match r with
      | inl u => ret u
      | inr candidates =>
          exec if_inconclusive self candidates in
          raise (AmbiguousUserFromEmail (email self)
                   (UserEmail.user <$> candidates))
      end
  end.

(** [resolve_email_to_user] *)
Definition resolve_email_to_user (email : string)
    (organization : option Organization.t) : M (option User.t) :=
  let candidates := UserEmail_objects_filter email in
  match candidates with
  | [] => ret None
  | _ =>
      let* u := resolve (mk_EmailResolver email organization) candidates in
      ret (Some u)
  end.

End resolver.

(** ** The spec's reading of the pipeline

    The definitions of this section follow the words of the specification
    (its step table and the three-way rule of the step loop), not the code;
    the theorems below compare them with [resolve]. *)

Section narrowing.
Variable get_member_summaries_by_ids : Z → list Z → rpc_result.

(** "If [|next| == 0]: discard [next], keep [current] unchanged"; otherwise
    the narrowed set is retained. *)
Definition no_op_rule (next current : list UserEmail.t) : list UserEmail.t :=
  match next with
  | [] => current
  | _ => next
  end.

(** "keep candidates whose address-verification flag is true" *)
Definition VerifiedFilter (current : list UserEmail.t) : list UserEmail.t :=
  filter (λ ue, UserEmail.is_verified ue = true) current.

(** The candidates whose account is among the accounts the oracle
    answered with. *)
Definition keep_members (ms : list MemberSummary.t)
    (current : list UserEmail.t) : list UserEmail.t :=
  let belonging : gset Z := list_to_set (MemberSummary.user_id <$> ms) in
  filter (λ ue, UserEmail.user_id ue ∈ belonging) current.

(** "keep candidates whose account belongs to the target organization, per
    the Organization Membership Oracle; if no organization was supplied in
    context, this step's predicate returns the empty set". [None] is the
    oracle's failure. *)
Definition OrgMembershipFilter (org : option Organization.t)
    (current : list UserEmail.t) : option (list UserEmail.t) :=
  match org with
  | None => Some []
  | Some o =>
      match get_member_summaries_by_ids (Organization.id o)
              (UserEmail.user_id <$> current) with
      | RpcOk ms => Some (keep_members ms current)
      | RpcFail _ => None
      end
  end.

(** "keep candidates for whom this specific email is their account's
    designated primary address" *)
Definition PrimaryAddressFilter (current : list UserEmail.t) : list UserEmail.t :=
  filter (λ ue, UserEmail.is_primary ue = true) current.

(** The current set after each of the three steps, with the no-op rule
    applied and no early stop. *)
Definition after_verified (candidates : list UserEmail.t) : list UserEmail.t :=
  no_op_rule (VerifiedFilter candidates) candidates.

Definition after_org (org : option Organization.t)
    (candidates : list UserEmail.t) : option (list UserEmail.t) :=
  let current := after_verified candidates in
  (λ next, no_op_rule next current) <$> OrgMembershipFilter org current.

Definition after_all_steps (org : option Organization.t)
    (candidates : list UserEmail.t) : option (list UserEmail.t) :=
  (λ current, no_op_rule (PrimaryAddressFilter current) current)
    <$> after_org org candidates.

(** The counters one resolution increments, read off the specification:
    none for fewer than two candidates, the counter of the first step that
    narrows to a single survivor, the inconclusive counter when no step
    does, none when the oracle fails. *)
Definition counters_fired (org : option Organization.t)
    (candidates : list UserEmail.t) : list string :=
  match candidates with
  | [] | [_] => []
  | _ =>
      match VerifiedFilter candidates with
      | [_] => ["auth.email_resolution.by_verification"]
      | _ =>
          let c1 := after_verified candidates in
          match OrgMembershipFilter org c1 with
          | None => []
          | Some [_] => ["auth.email_resolution.by_org_membership"]
          | Some next =>
              match PrimaryAddressFilter (no_op_rule next c1) with
              | [_] => ["auth.email_resolution.by_primary_email"]
              | _ => ["auth.email_resolution.no_resolution"]
              end
          end
      end
  end.

(** The specification's reading of the outcomes as return values: a
    resolution with no candidate, or with two or more left after all
    steps, hands a value back to its caller. *)
Definition outcomes_are_returned
    (UserEmail_objects_filter : string → list UserEmail.t) : Prop :=
  ∀ (email : string) (org : option Organization.t) (w : World)
    (remaining : list UserEmail.t),
    UserEmail_objects_filter email = []
    ∨ (after_all_steps org (UserEmail_objects_filter email) = Some remaining
       ∧ (2 ≤ length remaining)%nat) →
    ∃ v, (resolve_email_to_user get_member_summaries_by_ids
            UserEmail_objects_filter email org w).1 = Return v.

End narrowing.

(** The world after one organization service call about [candidates]. *)
Definition called (org : Organization.t) (candidates : list UserEmail.t)
    (w : World) : World :=
  mkWorld (metrics w)
    (rpc_calls w ++ [(Organization.id org, UserEmail.user_id <$> candidates)]).

(** The world after one more increment of [name]. *)
Definition counted (name : string) (w : World) : World :=
  mkWorld (metrics w ++ [name]) (rpc_calls w).

(** ** Outcomes up to the order of the candidates *)

(** An organization service whose answer to a batch of ids does not depend on
    the order of the ids, as far as the resolver reads it: the same failure,
    or the same set of member ids. *)
Definition order_insensitive (oracle : Z → list Z → rpc_result) : Prop :=
  ∀ organization_id ids ids',
    ids ≡ₚ ids' →
    match oracle organization_id ids, oracle organization_id ids' with
    | RpcOk ms, RpcOk ms' =>
        (list_to_set (MemberSummary.user_id <$> ms) : gset Z)
        = list_to_set (MemberSummary.user_id <$> ms')
    | RpcFail msg, RpcFail msg' => msg = msg'
    | _, _ => False
    end.

(** Two runs of one step, or of the loop, agree up to order: the same
    counters, and the same user, the same exception or the same candidates up
    to order. *)
Definition agree_up_to_order {A} (same : A → A → Prop)
    (r1 r2 : outcome A * World) : Prop :=
  metrics r1.2 = metrics r2.2
  ∧ match r1.1, r2.1 with
    | Return a1, Return a2 => same a1 a2
    | Raise e1, Raise e2 => e1 = e2
    | _, _ => False
    end.

Definition same_or_permuted (r1 r2 : User.t + list UserEmail.t) : Prop :=
  match r1, r2 with
  | inl u1, inl u2 => u1 = u2
  | inr c1, inr c2 => c1 ≡ₚ c2
  | _, _ => False
  end.

(** A step whose [apply] agrees up to order on permuted candidates and whose
    hook only increments a counter. *)
Definition order_blind (self : _EmailResolver) (step : ResolutionStep) : Prop :=
  (∀ c1 c2 w1 w2,
     c1 ≡ₚ c2 → metrics w1 = metrics w2 →
     agree_up_to_order (≡ₚ) (apply step self c1 w1) (apply step self c2 w2))
  ∧ ∃ name, ∀ last choice, if_conclusive step self last choice = metrics_incr name.

(** Two outcomes of [resolve] that differ at most in the order in which an
    ambiguity names its users. *)
Definition same_resolution (r1 r2 : outcome User.t * World) : Prop :=
  metrics r1.2 = metrics r2.2
  ∧ match r1.1, r2.1 with
    | Return u1, Return u2 => u1 = u2
    | Raise (AmbiguousUserFromEmail e1 users1),
      Raise (AmbiguousUserFromEmail e2 users2) => e1 = e2 ∧ users1 ≡ₚ users2
    | Raise ValueError, Raise ValueError => True
    | Raise (RpcException msg1), Raise (RpcException msg2) => msg1 = msg2
    | _, _ => False
    end.

(** * Replay recording segments (sentry.replays.serializers) *)

Module ReplaySerializer.
Section serializer.
Context {datetime : Type}.

(** Modelled from the spec: [sentry.replays.models.ReplayRecordingSegment],
    with the four attributes the serializer reads; the time of [date_added]
    is kept abstract. *)
Record ReplayRecordingSegment : Type := mk {
  replay_id : string;
  segment_id : Z;
  project_id : Z;
  date_added : datetime
}.

(** The values of the dict [serialize] returns. *)
Inductive value : Type :=
| Str (s : string)
| Int (n : Z)
| Date (d : datetime).

(** [str(n)] of a Python [int]: decimal digits, a leading [-] when
    negative. *)
Definition str (n : Z) : string := pretty n.

(** [ReplayRecordingSegmentSerializer.serialize]: the dict literal, its keys
    in the order written. *)
Definition serialize {Attrs Usr : Type} (obj : ReplayRecordingSegment)
    (attrs : Attrs) (user : Usr) : list (string * value) :=
  [ ("replayId", Str (replay_id obj));
    ("segmentId", Int (segment_id obj));
    ("projectId", Str (str (project_id obj)));
    ("dateAdded", Date (date_added obj)) ].

End serializer.
End ReplaySerializer.

(** * Slack messages for metric alerts
      (sentry.integrations.slack.message_builder.incidents) *)

Module SlackIncidents.

(** The line feed of the f-strings. *)
Definition LF : string := String (Ascii.ascii_of_nat 10) "".

(** Truth value of a [str | None] in a condition. *)
Definition truthy (s : option string) : bool :=
  match s with
  | Some s => bool_decide (s ≠ "")
  | None => false
  end.

(** Modelled from the spec: the [AlertRule] reached through
    [action.alert_rule_trigger.alert_rule], with the two attributes [build]
    reads. *)
Record AlertRule : Type := mkAlertRule {
  description : option string;
  detection_type : string
}.
Record AlertRuleTrigger : Type := mkAlertRuleTrigger { alert_rule : AlertRule }.
Record AlertRuleTriggerAction : Type := mkAlertRuleTriggerAction {
  alert_rule_trigger : AlertRuleTrigger
}.

(** Modelled from the spec: the entries [build] reads of the dict
    [incident_attachment_info] returns, for times of type [datetime]. *)
Record AttachmentInfo (datetime : Type) : Type := mkAttachmentInfo {
  data_text : string;
  data_ts : datetime;
  data_status : string;
  data_title_link : string;
  data_title : string
}.
Arguments mkAttachmentInfo {datetime}.
Arguments data_text {datetime}.
Arguments data_ts {datetime}.
Arguments data_status {datetime}.
Arguments data_title_link {datetime}.
Arguments data_title {datetime}.

(** What the module imports and inherits, taken as given: times, floats,
    incidents and their statuses, the feature flags, the helpers of
    [BlockSlackMessageBuilder] with the blocks and the body they build, the
    two colour tables, and [incident_attachment_info]. *)
Class Imports : Type := {
  datetime : Type;
  float : Type;
  Incident : Type;
  IncidentStatus : Type;
  IncidentStatus_eq_dec :: EqDecision IncidentStatus;
  CLOSED : IncidentStatus;
  SlackBlock : Type;
  SlackBody : Type;
  (** ["{:.0f}".format(timestamp.timestamp())] *)
  format_timestamp_0f : datetime → string;
  (** [str.title()] *)
  title : string → string;
  escape_slack_text : string → string;
  features_has : string → Organization.t → bool;
  incident_organization : Incident → Organization.t;
  get_markdown_block : string → SlackBlock;
  get_image_block : string → string → SlackBlock;
  _build_blocks : list SlackBlock → string → option string → SlackBody;
  LEVEL_TO_COLOR : gmap string string;
  INCIDENT_COLOR_MAPPING : gmap string string;
  incident_attachment_info :
    Incident → IncidentStatus → option float → option string → string →
    AttachmentInfo datetime
}.

Section builder.
Context {imports : Imports}.

(** [get_started_at] *)
Definition get_started_at (timestamp : datetime) : string :=
  "<!date^" +:+ format_timestamp_0f timestamp
  +:+ "^Started: " +:+ "{date_pretty}" +:+ " at " +:+ "{time}"
  +:+ " | Sentry Incident>".

(** [SlackIncidentsMessageBuilder], the attributes [__init__] stores. *)
Record SlackIncidentsMessageBuilder : Type := mkBuilder {
  action : AlertRuleTriggerAction;
  incident : Incident;
  new_status : IncidentStatus;
  metric_value : option float;
  chart_url : option string;
  notification_uuid : option string
}.

(** The attachment data [build] starts from. *)
Definition data (self : SlackIncidentsMessageBuilder) : AttachmentInfo datetime :=
  incident_attachment_info (incident self) (new_status self)
    (metric_value self) (notification_uuid self) "metric_alert_slack".

(** [incident_text], as it stands when the first block is made. *)
Definition incident_text (self : SlackIncidentsMessageBuilder) : string :=
  let alert_rule := alert_rule (alert_rule_trigger (action self)) in
  let incident_text :=
    data_text (data self) +:+ LF +:+ get_started_at (data_ts (data self)) in
  if features_has "organizations:anomaly-detection-alerts"
       (incident_organization (incident self))
  then incident_text +:+ LF +:+ "Threshold: " +:+ title (detection_type alert_rule)
  else incident_text.

(** The condition under which the notes block is appended. *)
Definition shows_notes (self : SlackIncidentsMessageBuilder) : bool :=
  let alert_rule := alert_rule (alert_rule_trigger (action self)) in
  truthy (description alert_rule)
  && features_has "organizations:slack-metric-alert-description"
       (incident_organization (incident self))
  && negb (bool_decide (new_status self = CLOSED)).

(** [color] *)
Definition color (self : SlackIncidentsMessageBuilder) : option string :=
  LEVEL_TO_COLOR !! default "" (INCIDENT_COLOR_MAPPING !! data_status (data self)).

(** [fallback_text] *)
Definition fallback_text (self : SlackIncidentsMessageBuilder) : string :=
  "<" +:+ data_title_link (data self) +:+ "|*"
  +:+ escape_slack_text (data_title (data self)) +:+ "*>".

(** [SlackIncidentsMessageBuilder.build] *)
Definition build (self : SlackIncidentsMessageBuilder) : SlackBody :=
  let alert_rule := alert_rule (alert_rule_trigger (action self)) in
  let blocks := [get_markdown_block (incident_text self)] in
  let blocks :=
    if shows_notes self
    then blocks ++ [get_markdown_block
                      ("*Notes*: " +:+ default "" (description alert_rule))]
    else blocks in
  let blocks :=
    match chart_url self with
    | Some url =>
        if bool_decide (url ≠ "")
        then blocks ++ [get_image_block url "Metric Alert Chart"]
        else blocks
    | None => blocks
    end in
  _build_blocks blocks (fallback_text self) (color self).

End builder.
End SlackIncidents.

(** ** Fixtures *)

Definition w0 : World := mkWorld [] [].
Definition ue (uid : Z) (verified primary : bool) : UserEmail.t :=
  UserEmail.mk (User.mk uid) verified primary.
Definition org7 : Organization.t := Organization.mk 7.
Definition members (ids : list Z) : Z → list Z → rpc_result :=
  λ _ _, RpcOk (MemberSummary.mk <$> ids).
Definition unavailable : Z → list Z → rpc_result :=
  λ _ _, RpcFail "timeout".
Definition with_org7 : _EmailResolver := mk_EmailResolver "a@b.c" (Some org7).
Definition without_org : _EmailResolver := mk_EmailResolver "a@b.c" None.
Definition two_unverified : list UserEmail.t :=
  [ue 1 false false; ue 2 false false].
Definition stored (l : list UserEmail.t) : string → list UserEmail.t := λ _, l.

(** A plain reading of the Slack imports, for examples: times and floats
    are integers, an incident is its organization, status 2 is closed, blocks
    are tagged strings and the body is what [_build_blocks] was handed. *)
Definition plain_imports : SlackIncidents.Imports := {|
  SlackIncidents.datetime := Z;
  SlackIncidents.float := Z;
  SlackIncidents.Incident := Organization.t;
  SlackIncidents.IncidentStatus := Z;
  SlackIncidents.CLOSED := 2;
  SlackIncidents.SlackBlock := string * string;
  SlackIncidents.SlackBody := list (string * string) * string * option string;
  SlackIncidents.format_timestamp_0f := pretty;
  SlackIncidents.title := id;
  SlackIncidents.escape_slack_text := id;
  SlackIncidents.features_has := λ _ _, true;
  SlackIncidents.incident_organization := id;
  SlackIncidents.get_markdown_block := λ text, ("mrkdwn", text);
  SlackIncidents.get_image_block := λ url alt, ("image", url);
  SlackIncidents._build_blocks := λ blocks fallback_text color,
    (blocks, fallback_text, color);
  SlackIncidents.LEVEL_TO_COLOR := {[ "warning" := "#FFC227" ]};
  SlackIncidents.INCIDENT_COLOR_MAPPING := {[ "Warning" := "warning" ]};
  SlackIncidents.incident_attachment_info := λ _ _ _ _ _,
    SlackIncidents.mkAttachmentInfo "CPU above 90" 1718000000 "Warning"
      "https://sentry.example/alerts/1" "CPU"
|}.

Definition closed_with_notes
  : SlackIncidents.SlackIncidentsMessageBuilder (imports := plain_imports) :=
  SlackIncidents.mkBuilder (imports := plain_imports)
    (SlackIncidents.mkAlertRuleTriggerAction
       (SlackIncidents.mkAlertRuleTrigger
          (SlackIncidents.mkAlertRule (Some "call the owner") "static")))
    org7 (2 : Z) None (Some "https://chart.example/1.png") None.

Definition open_with_notes
  : SlackIncidents.SlackIncidentsMessageBuilder (imports := plain_imports) :=
  SlackIncidents.mkBuilder (imports := plain_imports)
    (SlackIncidents.mkAlertRuleTriggerAction
       (SlackIncidents.mkAlertRuleTrigger
          (SlackIncidents.mkAlertRule (Some "call the owner") "static")))
    org7 (20 : Z) None (Some "https://chart.example/1.png") None.

(** ** The monad and the steps, one equation each *)

Lemma bind_Return {A B} (m : M A) (k : A → M B) w a w' :
  m w = (Return a, w') → bind m k w = k a w'.
Proof. unfold bind. by intros ->. Qed.

Lemma bind_Raise {A B} (m : M A) (k : A → M B) w e w' :
  m w = (Raise e, w') → bind m k w = (Raise e, w').
Proof. unfold bind. by intros ->. Qed.

Lemma apply_IsVerified self candidates w :
  apply IsVerified self candidates w = (Return (VerifiedFilter candidates), w).
Proof. reflexivity. Qed.

Lemma apply_IsPrimary self candidates w :
  apply IsPrimary self candidates w = (Return (PrimaryAddressFilter candidates), w).
Proof. reflexivity. Qed.

Section step_equations.
Variable oracle : Z → list Z → rpc_result.

Lemma apply_HasOrgMembership_no_org self candidates w :
  organization self = None →
  apply (HasOrgMembership oracle) self candidates w = (Return [], w).
Proof. simpl. by intros ->. Qed.

Lemma apply_HasOrgMembership_ok self org candidates next w :
  organization self = Some org →
  OrgMembershipFilter oracle (Some org) candidates = Some next →
  apply (HasOrgMembership oracle) self candidates w
  = (Return next, called org candidates w).
Proof.
  simpl. intros -> Hf. unfold bind, organization_service_get_member_summaries_by_ids.
  destruct (oracle _ _); [|done]. by injection Hf as <-.
Qed.

Lemma apply_HasOrgMembership_fail self org candidates msg w :
  organization self = Some org →
  oracle (Organization.id org) (UserEmail.user_id <$> candidates) = RpcFail msg →
  apply (HasOrgMembership oracle) self candidates w
  = (Raise (RpcException msg), called org candidates w).
Proof.
  simpl. intros -> Hf.
  unfold bind, organization_service_get_member_summaries_by_ids. by rewrite Hf.
Qed.
End step_equations.

(** ** The loop body, by the size of what the step keeps *)

Section loop.
Context (self : _EmailResolver) (step : ResolutionStep).

Lemma loop_body_none candidates w w1 :
  apply step self candidates w = (Return [], w1) →
  loop_body self step candidates w = (Return (inr candidates), w1).
Proof. intros H. unfold loop_body. by rewrite (bind_Return _ _ _ _ _ H). Qed.

Lemma loop_body_one candidates choice w w1 :
  apply step self candidates w = (Return [choice], w1) →
  loop_body self step candidates w
  = bind (if_conclusive step self candidates choice)
      (λ _, ret (inl (UserEmail.user choice))) w1.
Proof. intros H. unfold loop_body. by rewrite (bind_Return _ _ _ _ _ H). Qed.

Lemma loop_body_many candidates a b next w w1 :
  apply step self candidates w = (Return (a :: b :: next), w1) →
  loop_body self step candidates w = (Return (inr (a :: b :: next)), w1).
Proof. intros H. unfold loop_body. by rewrite (bind_Return _ _ _ _ _ H). Qed.

Lemma loop_body_raise candidates e w w1 :
  apply step self candidates w = (Raise e, w1) →
  loop_body self step candidates w = (Raise e, w1).
Proof. intros H. unfold loop_body. by rewrite (bind_Raise _ _ _ _ _ H). Qed.

(** Whatever the step keeps, what the loop carries on with is the no-op
    rule's set. *)
Lemma loop_body_carries candidates w c w' :
  loop_body self step candidates w = (Return (inr c), w') →
  ∃ next w1, apply step self candidates w = (Return next, w1)
             ∧ c = no_op_rule next candidates.
Proof.
  unfold loop_body, bind. destruct (apply step self candidates w) as [[next|e] w1]; [|done].
  destruct next as [|a [|b next]].
  - intros [= <- <-]. by eexists _, _.
  - destruct (if_conclusive _ _ _ _ _) as [[]]; done.
  - intros [= <- <-]. by eexists _, _.
Qed.
End loop.

Lemma for_steps_cons self step steps candidates w c w1 :
  loop_body self step candidates w = (Return (inr c), w1) →
  for_steps self (step :: steps) candidates w = for_steps self steps c w1.
Proof. intros H. simpl. by rewrite (bind_Return _ _ _ _ _ H). Qed.

Lemma for_steps_app self pre post candidates w c w1 :
  for_steps self pre candidates w = (Return (inr c), w1) →
  for_steps self (pre ++ post) candidates w = for_steps self post c w1.
Proof.
  revert candidates w. induction pre as [|step pre IH]; intros candidates w.
  - by intros [= <- <-].
  - simpl. unfold bind.
    destruct (loop_body self step candidates w) as [[[u|c'] |e] w']; try done.
    apply IH.
Qed.

Lemma no_op_rule_nonempty next current :
  current ≠ [] → no_op_rule next current ≠ [].
Proof. by destruct next. Qed.

Lemma for_steps_nonempty self steps candidates w c w1 :
  candidates ≠ [] →
  for_steps self steps candidates w = (Return (inr c), w1) →
  c ≠ [].
Proof.
  revert candidates w. induction steps as [|step steps IH]; intros candidates w Hne.
  - by intros [= <- <-].
  - simpl. unfold bind at 1.
    destruct (loop_body self step candidates w) as [[[u|c'] |e] w'] eqn:Hb; try done.
    apply loop_body_carries in Hb as (next & w2 & _ & ->).
    apply IH. by apply no_op_rule_nonempty.
Qed.

(** ** The three loop bodies of [get_steps] *)

Lemma loop_body_IsVerified self candidates w :
  loop_body self IsVerified candidates w
  = match VerifiedFilter candidates with
    | [choice] =>
        (Return (inl (UserEmail.user choice)),
         counted "auth.email_resolution.by_verification" w)
    | next => (Return (inr (no_op_rule next candidates)), w)
    end.
Proof.
  unfold loop_body. rewrite (bind_Return _ _ _ _ _ (apply_IsVerified _ _ _)).
  by destruct (VerifiedFilter candidates) as [|a [|b next]].
Qed.

Lemma loop_body_IsPrimary self candidates w :
  loop_body self IsPrimary candidates w
  = match PrimaryAddressFilter candidates with
    | [choice] =>
        (Return (inl (UserEmail.user choice)),
         counted "auth.email_resolution.by_primary_email" w)
    | next => (Return (inr (no_op_rule next candidates)), w)
    end.
Proof.
  unfold loop_body. rewrite (bind_Return _ _ _ _ _ (apply_IsPrimary _ _ _)).
  by destruct (PrimaryAddressFilter candidates) as [|a [|b next]].
Qed.

Lemma loop_body_HasOrgMembership oracle self candidates w :
  loop_body self (HasOrgMembership oracle) candidates w
  = match organization self with
    | None => (Return (inr candidates), w)
    | Some org =>
        match oracle (Organization.id org) (UserEmail.user_id <$> candidates) with
        | RpcFail msg => (Raise (RpcException msg), called org candidates w)
        | RpcOk ms =>
            match keep_members ms candidates with
            | [choice] =>
                (Return (inl (UserEmail.user choice)),
                 counted "auth.email_resolution.by_org_membership"
                   (called org candidates w))
            | next =>
                (Return (inr (no_op_rule next candidates)), called org candidates w)
            end
        end
    end.
Proof.
  destruct (organization self) as [org|] eqn:Horg.
  - destruct (oracle _ _) as [ms|msg] eqn:Hrpc.
    + assert (OrgMembershipFilter oracle (Some org) candidates
              = Some (keep_members ms candidates)) as Hf.
      { unfold OrgMembershipFilter. by rewrite Hrpc. }
      unfold loop_body.
      rewrite (bind_Return _ _ _ _ _
                 (apply_HasOrgMembership_ok oracle _ _ _ _ _ Horg Hf)).
      by destruct (keep_members ms candidates) as [|a [|b next]].
    + by apply loop_body_raise, apply_HasOrgMembership_fail.
  - by apply loop_body_none, apply_HasOrgMembership_no_org.
Qed.

Lemma resolve_many oracle self a b rest w :
  resolve oracle self (a :: b :: rest) w
  = bind (for_steps self (get_steps oracle self) (a :: b :: rest))
      (λ r, match r with
            | inl u => ret u
            | inr candidates =>
                bind (if_inconclusive self candidates)
                  (λ _, raise (AmbiguousUserFromEmail (email self)
                                 (UserEmail.user <$> candidates)))
            end) w.
Proof. reflexivity. Qed.

Lemma two_or_more {A} (l : list A) :
  (2 ≤ length l)%nat → ∃ a b rest, l = a :: b :: rest.
Proof. destruct l as [|a [|b rest]]; simpl; [lia..|]. by eexists _, _, _. Qed.

(** ** Narrowing a set that is already a singleton *)

Lemma filter_singleton_cases {A} (P : A → Prop) `{!∀ x, Decision (P x)} (x : A) :
  filter P [x] = [] ∨ filter P [x] = [x].
Proof.
  rewrite filter_cons, filter_nil. destruct (decide (P x)); auto.
Qed.

Lemma no_op_rule_filter_singleton (P : UserEmail.t → Prop)
    `{!∀ x, Decision (P x)} (x : UserEmail.t) :
  no_op_rule (filter P [x]) [x] = [x].
Proof. by destruct (filter_singleton_cases P x) as [-> | ->]. Qed.

Lemma no_op_rule_singleton (x : UserEmail.t) current :
  no_op_rule [x] current = [x].
Proof. reflexivity. Qed.

Lemma OrgMembershipFilter_singleton oracle org x next :
  OrgMembershipFilter oracle org [x] = Some next →
  no_op_rule next [x] = [x].
Proof.
  unfold OrgMembershipFilter. destruct org as [o|]; [|by intros [= <-]].
  destruct (oracle _ _) as [ms|]; [|done]. intros [= <-].
  apply no_op_rule_filter_singleton.
Qed.

Lemma for_steps_step self step steps candidates w :
  for_steps self (step :: steps) candidates w
  = match loop_body self step candidates w with
    | (Return (inl u), w') => (Return (inl u), w')
    | (Return (inr candidates'), w') => for_steps self steps candidates' w'
    | (Raise e, w') => (Raise e, w')
    end.
Proof.
  simpl. unfold bind.
  by destruct (loop_body self step candidates w) as [[[u|c]|e] w'].
Qed.

Lemma resolve_two_or_more oracle self candidates w :
  (2 ≤ length candidates)%nat →
  resolve oracle self candidates w
  = match for_steps self (get_steps oracle self) candidates w with
    | (Return (inl u), w') => (Return u, w')
    | (Return (inr remaining), w') =>
        (Raise (AmbiguousUserFromEmail (email self) (UserEmail.user <$> remaining)),
         counted "auth.email_resolution.no_resolution" w')
    | (Raise e, w') => (Raise e, w')
    end.
Proof.
  intros (a & b & rest & ->)%two_or_more. rewrite resolve_many. unfold bind.
  by destruct (for_steps _ _ _ _) as [[[u|c]|e] w'].
Qed.

Lemma after_all_steps_unfold oracle org candidates :
  after_all_steps oracle org candidates
  = match OrgMembershipFilter oracle org (after_verified candidates) with
    | Some next =>
        let current := no_op_rule next (after_verified candidates) in
        Some (no_op_rule (PrimaryAddressFilter current) current)
    | None => None
    end.
Proof.
  unfold after_all_steps, after_org.
  by destruct (OrgMembershipFilter _ _ _).
Qed.

Ltac run_step :=
  rewrite for_steps_step;
  first [ rewrite loop_body_IsVerified
        | rewrite loop_body_HasOrgMembership
        | rewrite loop_body_IsPrimary ].


(** *** The path on which no step is conclusive *)

Lemma inconclusive_from_primary self current w :
  (2 ≤ length (no_op_rule (PrimaryAddressFilter current) current))%nat →
  for_steps self [IsPrimary] current w
  = (Return (inr (no_op_rule (PrimaryAddressFilter current) current)), w).
Proof.
  intros Hrem. run_step.
  destruct (PrimaryAddressFilter current) as [|x [|y next]]; simpl in *; [done|lia|done].
Qed.

Lemma inconclusive_from_org oracle self current next w :
  OrgMembershipFilter oracle (organization self) current = Some next →
  let current' := no_op_rule next current in
  (2 ≤ length (no_op_rule (PrimaryAddressFilter current') current'))%nat →
  ∃ w', for_steps self [HasOrgMembership oracle; IsPrimary] current w
        = (Return (inr (no_op_rule (PrimaryAddressFilter current') current')), w')
        ∧ metrics w' = metrics w.
Proof.
  intros Hf current' Hrem. run_step. unfold OrgMembershipFilter in Hf.
  destruct (organization self) as [org|].
  - destruct (oracle _ _) as [ms|msg]; [|done]. injection Hf as <-.
    destruct (keep_members ms current) as [|x [|y l]] eqn:Hk.
    + eexists. split; [by apply inconclusive_from_primary|done].
    + exfalso. subst current'. rewrite no_op_rule_singleton in Hrem.
      unfold PrimaryAddressFilter in Hrem.
      rewrite no_op_rule_filter_singleton in Hrem. simpl in Hrem. lia.
    + eexists. split; [by apply inconclusive_from_primary|done].
  - injection Hf as <-. eexists. split; [by apply inconclusive_from_primary|done].
Qed.


Lemma no_op_rule_sublist next current :
  next `sublist_of` current → no_op_rule next current `sublist_of` current.
Proof. by destruct next. Qed.

Lemma OrgMembershipFilter_sublist oracle org current next :
  OrgMembershipFilter oracle org current = Some next → next `sublist_of` current.
Proof.
  unfold OrgMembershipFilter. destruct org as [o|].
  - destruct (oracle _ _) as [ms|]; [|done]. intros [= <-]. apply sublist_filter.
  - intros [= <-]. apply sublist_nil_l.
Qed.

Lemma after_all_steps_sublist oracle org candidates remaining :
  after_all_steps oracle org candidates = Some remaining →
  remaining `sublist_of` candidates.
Proof.
  rewrite after_all_steps_unfold.
  destruct (OrgMembershipFilter _ _ _) as [next|] eqn:Hf; [|done].
  intros [= <-]. apply OrgMembershipFilter_sublist in Hf.
  etrans; [apply no_op_rule_sublist, sublist_filter|].
  etrans; [by apply no_op_rule_sublist|].
  apply no_op_rule_sublist, sublist_filter.
Qed.

Lemma for_steps_inconclusive oracle self candidates remaining w :
  after_all_steps oracle (organization self) candidates = Some remaining →
  (2 ≤ length remaining)%nat →
  ∃ w1, for_steps self (get_steps oracle self) candidates w
        = (Return (inr remaining), w1)
        ∧ metrics w1 = metrics w.
Proof.
  rewrite after_all_steps_unfold. unfold get_steps, after_verified.
  destruct (OrgMembershipFilter _ _ _) as [next|] eqn:Hf; [|done].
  intros [= <-] Hrem. run_step.
  destruct (VerifiedFilter candidates) as [|x [|y v]] eqn:Hv.
  - by apply inconclusive_from_org.
  - exfalso. rewrite no_op_rule_singleton in Hf, Hrem.
    rewrite (OrgMembershipFilter_singleton _ _ _ _ Hf) in Hrem.
    unfold PrimaryAddressFilter in Hrem.
    rewrite no_op_rule_filter_singleton in Hrem. simpl in Hrem. lia.
  - by apply inconclusive_from_org.
Qed.

(** ** The step loop *)

(** C1: whenever a step's narrowing keeps nobody, the loop body hands the
    candidates it was given on to the next step unchanged, and the candidates
    the loop holds at any point of a resolution that started non-empty are
    non-empty. *)
Theorem eliminating_step_is_ignored self pre step post candidates w c w1 w2 :
  candidates ≠ [] →
  for_steps self pre candidates w = (Return (inr c), w1) →
  apply step self c w1 = (Return [], w2) →
  c ≠ []
  ∧ loop_body self step c w1 = (Return (inr c), w2)
  ∧ for_steps self (pre ++ step :: post) candidates w = for_steps self post c w2.
Proof.
  intros Hne Hpre Hnil. split; [by eapply for_steps_nonempty|].
  pose proof (loop_body_none self step c w1 w2 Hnil) as Hbody.
  split; [done|].
  rewrite (for_steps_app _ _ _ _ _ _ _ Hpre).
  by apply for_steps_cons.
Qed.

Lemma eliminating_step_is_ignored_witness :
  two_unverified ≠ []
  ∧ loop_body with_org7 (HasOrgMembership (members [])) two_unverified w0
    = (Return (inr two_unverified), called org7 two_unverified w0)
  ∧ for_steps with_org7
      ([IsVerified] ++ HasOrgMembership (members []) :: [IsPrimary])
      two_unverified w0
    = for_steps with_org7 [IsPrimary] two_unverified
        (called org7 two_unverified w0).
Proof.
  apply (eliminating_step_is_ignored with_org7 [IsVerified]
           (HasOrgMembership (members [])) [IsPrimary]
           two_unverified w0 two_unverified w0 (called org7 two_unverified w0)).
  - discriminate.
  - reflexivity.
  - reflexivity.
Defined.

(** C5: a collection of exactly one candidate resolves to that candidate's
    user at once; the world is left as it was, so no step ran, no counter was
    incremented and the organization service was not called. *)
Theorem single_candidate_is_returned oracle self unique_email w :
  resolve oracle self [unique_email] w = (Return (UserEmail.user unique_email), w).
Proof. reflexivity. Qed.

(** C6: with two or more candidates of which exactly one is verified,
    [resolve] returns that candidate's user out of the [IsVerified] step and
    increments the by-verification counter, whatever the organization, the
    organization service and the other flags are. *)
Theorem sole_verified_is_chosen oracle self candidates choice w :
  (2 ≤ length candidates)%nat →
  filter (λ ue, UserEmail.is_verified ue = true) candidates = [choice] →
  resolve oracle self candidates w
  = (Return (UserEmail.user choice),
     mkWorld (metrics w ++ ["auth.email_resolution.by_verification"]) (rpc_calls w)).
Proof.
  intros (a & b & rest & ->)%two_or_more Hv.
  rewrite resolve_many. unfold get_steps, for_steps, bind at 1 2.
  rewrite loop_body_IsVerified. unfold VerifiedFilter. by rewrite Hv.
Qed.

Lemma sole_verified_is_chosen_witness :
  resolve unavailable with_org7
    [ue 1 false true; ue 2 true false; ue 3 false true] w0
  = (Return (User.mk 2),
     mkWorld ["auth.email_resolution.by_verification"] []).
Proof.
  apply (sole_verified_is_chosen unavailable with_org7
           [ue 1 false true; ue 2 true false; ue 3 false true] (ue 2 true false) w0).
  - simpl. lia.
  - reflexivity.
Defined.

(** C2: when two or more candidates are left after the three steps, each
    taken with the no-op rule, [resolve] reports ambiguity (by raising
    [AmbiguousUserFromEmail]) with the users of exactly those candidates, in
    their order, and the only counter it increments is the no-resolution one,
    once. *)
Theorem ambiguity_is_reported oracle self candidates remaining w :
  (2 ≤ length candidates)%nat →
  after_all_steps oracle (organization self) candidates = Some remaining →
  (2 ≤ length remaining)%nat →
  ∃ w', resolve oracle self candidates w
        = (Raise (AmbiguousUserFromEmail (email self) (UserEmail.user <$> remaining)), w')
        ∧ metrics w' = metrics w ++ ["auth.email_resolution.no_resolution"].
Proof.
  intros Hlen Hafter Hrem. rewrite resolve_two_or_more by done.
  destruct (for_steps_inconclusive oracle self _ _ w Hafter Hrem) as (w1 & -> & Hm).
  eexists. split; [done|]. simpl. by rewrite Hm.
Qed.

Lemma ambiguity_is_reported_witness :
  ∃ w', resolve (members [1; 2; 5]) with_org7
          [ue 1 true false; ue 2 true false; ue 3 false true; ue 4 true false] w0
        = (Raise (AmbiguousUserFromEmail "a@b.c" [User.mk 1; User.mk 2]), w')
        ∧ metrics w' = ["auth.email_resolution.no_resolution"].
Proof.
  apply (ambiguity_is_reported (members [1; 2; 5]) with_org7
           [ue 1 true false; ue 2 true false; ue 3 false true; ue 4 true false]
           [ue 1 true false; ue 2 true false] w0).
  - simpl. lia.
  - vm_compute. reflexivity.
  - simpl. lia.
Defined.

(** ** What the caller of [resolve_email_to_user] sees *)

Lemma resolve_email_to_user_none oracle store email org w :
  store email = [] →
  resolve_email_to_user oracle store email org w = (Return None, w).
Proof. unfold resolve_email_to_user. by intros ->. Qed.

Lemma resolve_email_to_user_some oracle store email org w :
  store email ≠ [] →
  resolve_email_to_user oracle store email org w
  = match resolve oracle (mk_EmailResolver email org) (store email) w with
    | (Return u, w') => (Return (Some u), w')
    | (Raise e, w') => (Raise e, w')
    end.
Proof.
  unfold resolve_email_to_user, bind. destruct (store email) as [|a l]; [done|].
  intros _. by destruct (resolve _ _ _ _) as [[u|e] w'].
Qed.

(** C3, as the code has it: finding no candidate is an ordinary return value
    ([None]) of [resolve_email_to_user] and leaves the world untouched, whereas
    ambiguity (two or more candidates left after the three steps) is raised as
    the exception [AmbiguousUserFromEmail], carrying the address and the users
    of the remaining candidates. *)
Theorem no_match_returns_ambiguity_raises oracle store email org w :
  (store email = [] →
   resolve_email_to_user oracle store email org w = (Return None, w))
  ∧ (∀ remaining,
       after_all_steps oracle org (store email) = Some remaining →
       (2 ≤ length remaining)%nat →
       ∃ w', resolve_email_to_user oracle store email org w
             = (Raise (AmbiguousUserFromEmail email (UserEmail.user <$> remaining)),
                w')).
Proof.
  split; [apply resolve_email_to_user_none|].
  intros remaining Hafter Hrem.
  assert (2 ≤ length (store email))%nat as Hlen.
  { pose proof (sublist_length _ _ (after_all_steps_sublist _ _ _ _ Hafter)). lia. }
  rewrite resolve_email_to_user_some
    by (intros Hnil; rewrite Hnil in Hlen; simpl in Hlen; lia).
  rewrite resolve_two_or_more by done.
  destruct (for_steps_inconclusive oracle (mk_EmailResolver email org) _ _ w
              Hafter Hrem) as (w1 & -> & _).
  by eexists.
Qed.

Lemma no_match_returns_ambiguity_raises_witness :
  resolve_email_to_user unavailable (stored []) "a@b.c" (Some org7) w0
  = (Return None, w0)
  ∧ ∃ w', resolve_email_to_user (members []) (stored two_unverified) "a@b.c" None w0
          = (Raise (AmbiguousUserFromEmail "a@b.c" [User.mk 1; User.mk 2]), w').
Proof.
  split.
  - apply (proj1 (no_match_returns_ambiguity_raises unavailable (stored [])
                    "a@b.c" (Some org7) w0)). reflexivity.
  - apply (proj2 (no_match_returns_ambiguity_raises (members [])
                    (stored two_unverified) "a@b.c" None w0) two_unverified).
    + reflexivity.
    + simpl. lia.
Defined.

(** C3, as the specification words it, is refuted: two unverified,
    non-primary candidates and no organization make the resolution ambiguous,
    and [resolve_email_to_user] raises instead of returning. *)
Lemma ambiguity_is_not_returned :
  after_all_steps (members []) None two_unverified = Some two_unverified
  ∧ resolve_email_to_user (members []) (stored two_unverified) "a@b.c" None w0
    = (Raise (AmbiguousUserFromEmail "a@b.c" [User.mk 1; User.mk 2]),
       mkWorld ["auth.email_resolution.no_resolution"] [])
  ∧ ¬ outcomes_are_returned (members []) (stored two_unverified).
Proof.
  split; [reflexivity|]. split; [reflexivity|].
  intros H.
  destruct (H "a@b.c" None w0 two_unverified) as [v Hv].
  - right. split; [reflexivity|simpl; lia].
  - vm_compute in Hv. discriminate Hv.
Qed.

(** C4: when the query finds no candidate for the address, the resolution
    yields no user as an ordinary outcome: [resolve_email_to_user] returns
    [None], raises nothing, and leaves the counters and the organization service
    alone. *)
Theorem no_candidates_returns_None oracle store email org w :
  store email = [] →
  resolve_email_to_user oracle store email org w = (Return None, w).
Proof. unfold resolve_email_to_user. by intros ->. Qed.

Lemma no_candidates_returns_None_witness :
  resolve_email_to_user unavailable (stored []) "a@b.c" (Some org7) w0
  = (Return None, w0).
Proof.
  apply (no_candidates_returns_None unavailable (stored []) "a@b.c" (Some org7) w0).
  reflexivity.
Defined.

(** ** The organization step *)




(** C8: when the organization service fails on the candidates the
    [HasOrgMembership] step is given, the loop stops there, whatever steps
    would follow, and the failure is raised to the caller of [resolve]; no
    counter is incremented and the one call made is on record. *)
Theorem membership_failure_aborts oracle self org candidates msg w :
  (2 ≤ length candidates)%nat →
  length (VerifiedFilter candidates) ≠ 1%nat →
  organization self = Some org →
  oracle (Organization.id org) (UserEmail.user_id <$> after_verified candidates)
  = RpcFail msg →
  resolve oracle self candidates w
  = (Raise (RpcException msg),
     mkWorld (metrics w)
       (rpc_calls w ++ [(Organization.id org,
                         UserEmail.user_id <$> after_verified candidates)]))
  ∧ ∀ rest w1,
      for_steps self (HasOrgMembership oracle :: rest) (after_verified candidates) w1
      = (Raise (RpcException msg), called org (after_verified candidates) w1).
Proof.
  intros Hlen Hv Horg Hfail.
  assert (∀ rest w1,
      for_steps self (HasOrgMembership oracle :: rest) (after_verified candidates) w1
      = (Raise (RpcException msg), called org (after_verified candidates) w1)) as Hloop.
  { intros rest w1. run_step. by rewrite Horg, Hfail. }
  split; [|done].
  rewrite resolve_two_or_more by done. unfold get_steps. run_step.
  unfold after_verified in *.
  destruct (VerifiedFilter candidates) as [|x [|y v]]; [|done|]; by rewrite Hloop.
Qed.

Lemma membership_failure_aborts_witness :
  resolve unavailable with_org7 two_unverified w0
  = (Raise (RpcException "timeout"), mkWorld [] [(7, [1; 2])])
  ∧ ∀ rest w1,
      for_steps with_org7 (HasOrgMembership unavailable :: rest) two_unverified w1
      = (Raise (RpcException "timeout"), called org7 two_unverified w1).
Proof.
  apply (membership_failure_aborts unavailable with_org7 org7 two_unverified
           "timeout" w0).
  - simpl. lia.
  - vm_compute. lia.
  - reflexivity.
  - reflexivity.
Defined.

(** ** Steps only narrow *)

Lemma get_steps_apply_sublist oracle self step candidates w next w' :
  step ∈ get_steps oracle self →
  apply step self candidates w = (Return next, w') →
  next `sublist_of` candidates.
Proof.
  unfold get_steps. rewrite !elem_of_cons, elem_of_nil.
  intros [-> | [-> | [-> | []]]].
  - rewrite apply_IsVerified. intros [= <- _]. apply sublist_filter.
  - simpl. destruct (organization self) as [org|].
    + unfold bind, organization_service_get_member_summaries_by_ids.
      destruct (oracle _ _) as [ms|msg]; [|done].
      intros [= <- _]. apply sublist_filter.
    + intros [= <- _]. apply sublist_nil_l.
  - rewrite apply_IsPrimary. intros [= <- _]. apply sublist_filter.
Qed.

Lemma loop_body_chooses self step candidates w u w' :
  loop_body self step candidates w = (Return (inl u), w') →
  ∃ choice w1, apply step self candidates w = (Return [choice], w1)
               ∧ u = UserEmail.user choice.
Proof.
  unfold loop_body, bind.
  destruct (apply step self candidates w) as [[next|e] w1]; [|done].
  destruct next as [|a [|b next]]; [done| |done].
  destruct (if_conclusive _ _ _ _ _) as [[[]|e] w2]; [|done].
  intros [= <- _]. by eexists _, _.
Qed.

(** A loop over steps that only narrow picks its user among the candidates
    it started from. *)
Lemma for_steps_chooses_member self steps :
  (∀ step candidates w next w',
     step ∈ steps →
     apply step self candidates w = (Return next, w') →
     next `sublist_of` candidates) →
  ∀ candidates w u w',
    for_steps self steps candidates w = (Return (inl u), w') →
    ∃ choice, choice ∈ candidates ∧ UserEmail.user choice = u.
Proof.
  induction steps as [|step steps IH]; intros Hsub candidates w u w'; [done|].
  rewrite for_steps_step.
  destruct (loop_body self step candidates w) as [[[u1|c]|e] w1] eqn:Hbody; [| |done].
  - intros [= -> _].
    apply loop_body_chooses in Hbody as (choice & w2 & Happly & ->).
    exists choice. split; [|done].
    apply Hsub in Happly; [|by left].
    eapply sublist_subseteq; [done|]. by left.
  - intros Hrest.
    apply loop_body_carries in Hbody as (next & w2 & Happly & ->).
    apply Hsub in Happly; [|by left].
    apply IH in Hrest as (choice & Hin & Hu).
    + exists choice. split; [|done].
      eapply sublist_subseteq; [|done]. by apply no_op_rule_sublist.
    + intros ??????. eapply Hsub. by right.
Qed.

(** C9: the [apply] of each of the three steps returns a sub-collection of
    its input, in the input's order and with nothing added; hence the user
    [resolve] returns belongs to one of the candidates it was given. *)
Theorem steps_only_narrow oracle self :
  (∀ step candidates w next w',
     step ∈ get_steps oracle self →
     apply step self candidates w = (Return next, w') →
     next `sublist_of` candidates)
  ∧ (∀ candidates w u w',
       resolve oracle self candidates w = (Return u, w') →
       ∃ choice, choice ∈ candidates ∧ UserEmail.user choice = u).
Proof.
  split.
  - intros step candidates w next w'. apply get_steps_apply_sublist.
  - intros candidates w u w'. destruct candidates as [|a [|b rest]]; [done| |].
    + intros [= <- _]. exists a. split; [by left|done].
    + rewrite resolve_two_or_more by (simpl; lia).
      destruct (for_steps _ _ _ _) as [[[u1|c]|e] w1] eqn:Hloop; [|done..].
      intros [= -> _]. eapply for_steps_chooses_member; [|done].
      intros step candidates w2 next w3. apply get_steps_apply_sublist.
Qed.

Lemma steps_only_narrow_witness :
  [ue 2 false false] `sublist_of` [ue 1 true false; ue 2 false false; ue 3 true true]
  ∧ ∃ choice, choice ∈ [ue 1 true false; ue 2 false false; ue 3 true true]
              ∧ UserEmail.user choice = User.mk 3.
Proof.
  split.
  - apply (proj1 (steps_only_narrow (members [2; 9]) with_org7)
             (HasOrgMembership (members [2; 9]))
             [ue 1 true false; ue 2 false false; ue 3 true true] w0
             [ue 2 false false]
             (called org7 [ue 1 true false; ue 2 false false; ue 3 true true] w0)).
    + unfold get_steps. right. left.
    + vm_compute. reflexivity.
  - apply (proj2 (steps_only_narrow (members []) with_org7)
             [ue 1 true false; ue 2 false false; ue 3 true true] w0 (User.mk 3)
             (counted "auth.email_resolution.by_primary_email"
                (called org7 [ue 1 true false; ue 3 true true] w0))).
    vm_compute. reflexivity.
Defined.

(** ** Counters *)

Lemma counters_fired_two_or_more oracle org candidates :
  (2 ≤ length candidates)%nat →
  counters_fired oracle org candidates
  = match VerifiedFilter candidates with
    | [_] => ["auth.email_resolution.by_verification"]
    | _ =>
        let c1 := after_verified candidates in
        match OrgMembershipFilter oracle org c1 with
        | None => []
        | Some [_] => ["auth.email_resolution.by_org_membership"]
        | Some next =>
            match PrimaryAddressFilter (no_op_rule next c1) with
            | [_] => ["auth.email_resolution.by_primary_email"]
            | _ => ["auth.email_resolution.no_resolution"]
            end
        end
    end.
Proof. by intros (a & b & rest & ->)%two_or_more. Qed.

Lemma org_and_primary_summary oracle self current w :
  let fired :=
    match OrgMembershipFilter oracle (organization self) current with
    | None => []
    | Some [_] => ["auth.email_resolution.by_org_membership"]
    | Some next =>
        match PrimaryAddressFilter (no_op_rule next current) with
        | [_] => ["auth.email_resolution.by_primary_email"]
        | _ => ["auth.email_resolution.no_resolution"]
        end
    end in
  match for_steps self [HasOrgMembership oracle; IsPrimary] current w with
  | (Return (inl _), w') =>
      metrics w' = metrics w ++ fired
      ∧ (fired = ["auth.email_resolution.by_org_membership"]
         ∨ fired = ["auth.email_resolution.by_primary_email"])
  | (Return (inr _), w') =>
      metrics w' = metrics w ∧ fired = ["auth.email_resolution.no_resolution"]
  | (Raise e, w') =>
      metrics w' = metrics w ∧ fired = [] ∧ ∃ msg, e = RpcException msg
  end.
Proof.
  cbv zeta. run_step. unfold OrgMembershipFilter.
  destruct (organization self) as [org|].
  - destruct (oracle _ _) as [ms|msg]; [|by eauto].
    destruct (keep_members ms current) as [|x [|y l]]; [|by auto|].
    all: run_step.
    all: destruct (PrimaryAddressFilter _) as [|p [|q l']]; by auto.
  - run_step. destruct (PrimaryAddressFilter _) as [|p [|q l']]; by auto.
Qed.

(** C10: one call of [resolve] appends to the metrics exactly the counters the
    specification lists, which is at most one: one of the three step counters
    (that of the first step that narrows to a single candidate) when a user is
    returned for two or more candidates, the no-resolution counter when
    ambiguity is raised, and none for an empty or one-element collection (nor
    when the organization service fails). *)
Theorem at_most_one_counter oracle self candidates w :
  let fired := counters_fired oracle (organization self) candidates in
  metrics (resolve oracle self candidates w).2 = metrics w ++ fired
  ∧ (length fired ≤ 1)%nat
  ∧ match (resolve oracle self candidates w).1 with
    | Return _ =>
        if decide (2 ≤ length candidates)%nat
        then fired ∈ [ ["auth.email_resolution.by_verification"];
                       ["auth.email_resolution.by_org_membership"];
                       ["auth.email_resolution.by_primary_email"] ]
        else fired = []
    | Raise (AmbiguousUserFromEmail _ _) =>
        fired = ["auth.email_resolution.no_resolution"]
    | Raise _ => fired = []
    end
  ∧ ((length candidates ≤ 1)%nat → fired = []).
Proof.
  cbv zeta. case_decide as Hlen.
  - rewrite resolve_two_or_more, counters_fired_two_or_more by done.
    unfold get_steps, after_verified. cbv zeta. run_step.
    destruct (VerifiedFilter candidates) as [|x [|y v]];
      [|simpl; repeat split; [lia|by left|intros; lia]|].
    all: match goal with
         | |- context [for_steps ?s _ ?c ?w0] =>
             pose proof (org_and_primary_summary oracle s c w0) as Hsum
         end.
    all: cbv zeta in Hsum.
    all: destruct (for_steps _ _ _ _) as [[[u|c]|e] w'].
    all: try destruct Hsum as [Hm [HF|HF]].
    all: try destruct Hsum as [Hm [HF [msg ->]]].
    all: try destruct Hsum as [Hm HF].
    all: rewrite HF in *; simpl; rewrite Hm.
    all: repeat split; try done; try lia.
    all: try by rewrite app_nil_r.
    all: set_solver.
  - destruct candidates as [|a [|b rest]]; [| |simpl in Hlen; lia].
    all: simpl; rewrite app_nil_r; repeat split; done || lia.
Qed.

Lemma counters_fired_examples :
  counters_fired (members [2]) (Some org7) two_unverified
  = ["auth.email_resolution.by_org_membership"]
  ∧ counters_fired (members [2]) None two_unverified
    = ["auth.email_resolution.no_resolution"]
  ∧ counters_fired unavailable (Some org7) two_unverified = []
  ∧ counters_fired (members []) None [ue 1 true false; ue 2 true true]
    = ["auth.email_resolution.by_primary_email"].
Proof. repeat split; vm_compute; reflexivity. Qed.

Lemma at_most_one_counter_witness :
  metrics (resolve (members [2]) with_org7 two_unverified w0).2
  = ["auth.email_resolution.by_org_membership"]
  ∧ counters_fired unavailable None [ue 1 false false] = [].
Proof.
  split.
  - apply (proj1 (at_most_one_counter (members [2]) with_org7 two_unverified w0)).
  - apply (proj2 (proj2 (proj2
             (at_most_one_counter unavailable without_org [ue 1 false false] w0)))).
    simpl. lia.
Defined.

(** ** The scenarios of the specification, run on the code *)

Example scenario_org_member :
  resolve (members [2]) with_org7 two_unverified w0
  = (Return (User.mk 2),
     mkWorld ["auth.email_resolution.by_org_membership"] [(7, [1; 2])]).
Proof. reflexivity. Qed.

Example scenario_primary :
  resolve unavailable without_org [ue 1 true false; ue 2 true true] w0
  = (Return (User.mk 2), mkWorld ["auth.email_resolution.by_primary_email"] []).
Proof. reflexivity. Qed.

Example scenario_ambiguous :
  resolve unavailable without_org two_unverified w0
  = (Raise (AmbiguousUserFromEmail "a@b.c" [User.mk 1; User.mk 2]),
     mkWorld ["auth.email_resolution.no_resolution"] []).
Proof. reflexivity. Qed.

(** * Further properties of the resolver *)

(** ** What the loop carries from step to step *)

Lemma loop_body_continues self step candidates w c w' :
  loop_body self step candidates w = (Return (inr c), w') →
  ∃ next, apply step self candidates w = (Return next, w')
          ∧ c = no_op_rule next candidates ∧ length next ≠ 1%nat.
Proof.
  unfold loop_body, bind.
  destruct (apply step self candidates w) as [[next|e] w1]; [|done].
  destruct next as [|a [|b next]].
  - intros [= <- <-]. by eexists.
  - destruct (if_conclusive _ _ _ _ _) as [[]]; done.
  - intros [= <- <-]. by eexists.
Qed.

Lemma no_op_rule_two_or_more next current :
  length next ≠ 1%nat → (2 ≤ length current)%nat →
  (2 ≤ length (no_op_rule next current))%nat.
Proof. destruct next as [|a [|b next]]; simpl; [done|done|lia]. Qed.

(** Over steps that only narrow, what the loop is left with is a sublist of
    what it started from, and two or more stay two or more. *)
Lemma for_steps_remaining self steps :
  (∀ step candidates w next w',
     step ∈ steps →
     apply step self candidates w = (Return next, w') →
     next `sublist_of` candidates) →
  ∀ candidates w remaining w',
    for_steps self steps candidates w = (Return (inr remaining), w') →
    remaining `sublist_of` candidates
    ∧ ((2 ≤ length candidates)%nat → (2 ≤ length remaining)%nat).
Proof.
  induction steps as [|step steps IH]; intros Hsub candidates w remaining w'.
  - by intros [= <- _].
  - rewrite for_steps_step.
    destruct (loop_body self step candidates w) as [[[u|c]|e] w1] eqn:Hbody; [done| |done].
    apply loop_body_continues in Hbody as (next & Happly & -> & Hnext).
    apply Hsub in Happly; [|by left].
    intros [Hrem Hlen]%IH; [|intros ??????; eapply Hsub; by right].
    split.
    + etrans; [done|]. by apply no_op_rule_sublist.
    + intros H2. by apply Hlen, no_op_rule_two_or_more.
Qed.

(** The loop over [get_steps] raises nothing but a failure of the
    organization service, and that only when an organization was given. *)
Lemma org_and_primary_raises oracle self current w e w' :
  for_steps self [HasOrgMembership oracle; IsPrimary] current w = (Raise e, w') →
  ∃ msg, e = RpcException msg ∧ is_Some (organization self).
Proof.
  run_step. destruct (organization self) as [org|].
  - destruct (oracle _ _) as [ms|msg]; [|intros [= <- _]; by eauto].
    destruct (keep_members ms current) as [|p [|q l]]; [|done|].
    all: run_step; by destruct (PrimaryAddressFilter _) as [|p' [|q' l']].
  - run_step. by destruct (PrimaryAddressFilter _) as [|p' [|q' l']].
Qed.

Lemma for_steps_get_steps_raises oracle self candidates w e w' :
  for_steps self (get_steps oracle self) candidates w = (Raise e, w') →
  ∃ msg, e = RpcException msg ∧ is_Some (organization self).
Proof.
  unfold get_steps. run_step.
  destruct (VerifiedFilter candidates) as [|x [|y v]]; [|done|].
  all: apply org_and_primary_raises.
Qed.

Lemma loop_body_raises self step current w e w' :
  loop_body self step current w = (Raise e, w') →
  apply step self current w = (Raise e, w')
  ∨ ∃ choice w1, apply step self current w = (Return [choice], w1)
                 ∧ if_conclusive step self current choice w1 = (Raise e, w').
Proof.
  unfold loop_body, bind.
  destruct (apply step self current w) as [[next|e1] w1]; [|intros [= <- <-]; by left].
  destruct next as [|a [|b next]]; [done| |done].
  destruct (if_conclusive _ _ _ _ _) as [[[]|e2] w2] eqn:Hhook; [done|].
  intros [= <- <-]. right. by eexists _, _.
Qed.

(** The loop raises nothing of its own, whatever the steps are: an exception
    out of it was raised by the [apply] or the [if_conclusive] of a step, run
    on candidates that are not empty when the loop's were not. *)
Lemma for_steps_raises self steps candidates w e w' :
  for_steps self steps candidates w = (Raise e, w') →
  ∃ step current w0,
    step ∈ steps
    ∧ (candidates ≠ [] → current ≠ [])
    ∧ (apply step self current w0 = (Raise e, w')
       ∨ ∃ choice w1, apply step self current w0 = (Return [choice], w1)
                      ∧ if_conclusive step self current choice w1 = (Raise e, w')).
Proof.
  revert candidates w. induction steps as [|step steps IH]; intros candidates w; [done|].
  rewrite for_steps_step.
  destruct (loop_body self step candidates w) as [[[u|c]|e1] w1] eqn:Hbody; [done| |].
  - intros (step' & current & w0 & Hin & Hne & Hfrom)%IH.
    exists step', current, w0. split; [by right|]. split; [|done].
    intros Hc. apply Hne.
    apply loop_body_carries in Hbody as (next & w2 & _ & ->).
    by apply no_op_rule_nonempty.
  - intros [= <- <-]. apply loop_body_raises in Hbody.
    exists step, candidates, w. split; [by left|]. by split.
Qed.

(** X1: an exception out of [resolve] has one of three origins: the
    [ValueError] of the guard, raised on an empty collection before anything
    else happens; [AmbiguousUserFromEmail], raised after the loop ran through
    every step and incremented the no-resolution counter; or whatever
    [HasOrgMembership.apply] raised, which needs an organization. The filters
    of the other two steps and the hooks raise nothing. An exception out of
    [resolve_email_to_user] is one [resolve] raised on two or more candidates,
    so the guard is not what raised it. *)
Theorem exceptions_out_of_resolve oracle store self candidates address org w e w' :
  (resolve oracle self candidates w = (Raise e, w') →
   (candidates = [] ∧ e = ValueError ∧ w' = w)
   ∨ (∃ remaining w1,
        for_steps self (get_steps oracle self) candidates w
        = (Return (inr remaining), w1)
        ∧ e = AmbiguousUserFromEmail (email self) (UserEmail.user <$> remaining)
        ∧ w' = counted "auth.email_resolution.no_resolution" w1)
   ∨ (∃ current w0,
        is_Some (organization self) ∧ current ≠ []
        ∧ apply (HasOrgMembership oracle) self current w0 = (Raise e, w')))
  ∧ (resolve_email_to_user oracle store address org w = (Raise e, w') →
     (2 ≤ length (store address))%nat
     ∧ resolve oracle (mk_EmailResolver address org) (store address) w
       = (Raise e, w')).
Proof.
  split.
  - destruct candidates as [|a [|b rest]].
    + intros [= <- <-]. by left.
    + done.
    + rewrite resolve_two_or_more by (simpl; lia). intros Hr. right. revert Hr.
      destruct (for_steps _ _ _ _) as [[[u|c]|e1] w1] eqn:Hloop; [done| |].
      * intros [= <- <-]. left. by eexists _, _.
      * intros [= <- <-]. right.
        apply for_steps_raises in Hloop as (step & current & w0 & Hin & Hne & Hfrom).
        unfold get_steps in Hin. rewrite !elem_of_cons, elem_of_nil in Hin.
        destruct Hin as [-> | [-> | [-> | []]]].
        -- destruct Hfrom as [Ha | (choice & w2 & _ & Hh)]; [|done].
           by rewrite apply_IsVerified in Ha.
        -- destruct Hfrom as [Ha | (choice & w2 & _ & Hh)]; [|done].
           exists current, w0. split; [|split; [by apply Hne|done]].
           simpl in Ha. by destruct (organization self).
        -- destruct Hfrom as [Ha | (choice & w2 & _ & Hh)]; [|done].
           by rewrite apply_IsPrimary in Ha.
  - unfold resolve_email_to_user, bind.
    destruct (store address) as [|a [|b rest]] eqn:Hs; [done..|].
    destruct (resolve _ _ _ _) as [[u|e1] w1] eqn:Hr; [done|].
    intros [= <- <-]. split; [simpl; lia|done].
Qed.

Lemma exceptions_out_of_resolve_witness :
  (two_unverified = [] ∧ RpcException "timeout" = ValueError
   ∧ called org7 two_unverified w0 = w0)
  ∨ (∃ remaining w1,
       for_steps with_org7 (get_steps unavailable with_org7) two_unverified w0
       = (Return (inr remaining), w1)
       ∧ RpcException "timeout"
         = AmbiguousUserFromEmail (email with_org7) (UserEmail.user <$> remaining)
       ∧ called org7 two_unverified w0
         = counted "auth.email_resolution.no_resolution" w1)
  ∨ (∃ current w1,
       is_Some (organization with_org7) ∧ current ≠ []
       ∧ apply (HasOrgMembership unavailable) with_org7 current w1
         = (Raise (RpcException "timeout"), called org7 two_unverified w0)).
Proof.
  apply (proj1 (exceptions_out_of_resolve unavailable (stored []) with_org7
                  two_unverified "a@b.c" None w0 (RpcException "timeout")
                  (called org7 two_unverified w0))).
  reflexivity.
Defined.

(** X2: when [resolve] raises [AmbiguousUserFromEmail], the exception names
    the resolver's address and the users of at least two of the given
    candidates, in the order they were given. *)
Theorem ambiguity_names_two_or_more_candidates oracle self candidates w e users w' :
  resolve oracle self candidates w = (Raise (AmbiguousUserFromEmail e users), w') →
  e = email self
  ∧ ∃ remaining, users = UserEmail.user <$> remaining
                 ∧ remaining `sublist_of` candidates
                 ∧ (2 ≤ length remaining)%nat.
Proof.
  destruct candidates as [|a [|b rest]]; [done..|].
  rewrite resolve_two_or_more by (simpl; lia).
  destruct (for_steps _ _ _ _) as [[[u|c]|e'] w1] eqn:Hloop; [done| |].
  - intros [= <- <- _]. split; [done|]. exists c. split; [done|].
    apply for_steps_remaining in Hloop as [Hsub Hlen].
    + split; [done|]. apply Hlen. simpl. lia.
    + intros step c0 w2 next w3. apply get_steps_apply_sublist.
  - apply for_steps_get_steps_raises in Hloop as (msg & -> & _). done.
Qed.

Lemma ambiguity_names_two_or_more_candidates_witness :
  "a@b.c" = email with_org7
  ∧ ∃ remaining, [User.mk 1; User.mk 2] = UserEmail.user <$> remaining
                 ∧ remaining `sublist_of`
                     [ue 1 true false; ue 2 true false; ue 3 false true; ue 4 true false]
                 ∧ (2 ≤ length remaining)%nat.
Proof.
  apply (ambiguity_names_two_or_more_candidates (members [1; 2; 5]) with_org7
           [ue 1 true false; ue 2 true false; ue 3 false true; ue 4 true false] w0
           "a@b.c" [User.mk 1; User.mk 2]
           (counted "auth.email_resolution.no_resolution"
              (called org7 [ue 1 true false; ue 2 true false; ue 4 true false] w0))).
  vm_compute. reflexivity.
Defined.

(** ** The organization service call *)

Lemma org_and_primary_rpc_calls oracle self current w :
  rpc_calls (for_steps self [HasOrgMembership oracle; IsPrimary] current w).2
  = rpc_calls w
    ++ match organization self with
       | Some org => [(Organization.id org, UserEmail.user_id <$> current)]
       | None => []
       end.
Proof.
  run_step. destruct (organization self) as [org|].
  - destruct (oracle _ _) as [ms|msg]; [|done].
    destruct (keep_members ms current) as [|x [|y l]]; [|done|].
    all: run_step; by destruct (PrimaryAddressFilter _) as [|p [|q l']].
  - run_step. rewrite app_nil_r.
    by destruct (PrimaryAddressFilter _) as [|p [|q l']].
Qed.

Lemma resolve_snd_two_or_more oracle self candidates w :
  (2 ≤ length candidates)%nat →
  rpc_calls (resolve oracle self candidates w).2
  = rpc_calls (for_steps self (get_steps oracle self) candidates w).2.
Proof.
  intros Hlen. rewrite resolve_two_or_more by done.
  by destruct (for_steps _ _ _ _) as [[[u|c]|e] w1].
Qed.

Lemma resolve_rpc_calls oracle self candidates w :
  rpc_calls (resolve oracle self candidates w).2
  = rpc_calls w
    ++ match organization self with
       | Some org =>
           if decide ((2 ≤ length candidates)%nat
                      ∧ length (VerifiedFilter candidates) ≠ 1%nat)
           then [(Organization.id org,
                  UserEmail.user_id <$> after_verified candidates)]
           else []
       | None => []
       end.
Proof.
  destruct (decide (2 ≤ length candidates)%nat) as [Hlen|Hlen].
  - rewrite resolve_snd_two_or_more by done. unfold get_steps, after_verified.
    run_step.
    destruct (VerifiedFilter candidates) as [|x [|y v]] eqn:Hv.
    + rewrite org_and_primary_rpc_calls.
      destruct (organization self); [|done].
      by rewrite decide_True by (split; [done|simpl; lia]).
    + simpl. destruct (organization self); [|by rewrite app_nil_r].
      rewrite decide_False by (intros [_ ?]; simpl in *; lia).
      by rewrite app_nil_r.
    + rewrite org_and_primary_rpc_calls.
      destruct (organization self); [|done].
      by rewrite decide_True by (split; [done|simpl; lia]).
  - assert (rpc_calls (resolve oracle self candidates w).2 = rpc_calls w) as ->.
    { destruct candidates as [|a [|b rest]]; [done..|simpl in Hlen; lia]. }
    destruct (organization self); [|by rewrite app_nil_r].
    rewrite decide_False by (intros [? _]; done). by rewrite app_nil_r.
Qed.

(** X3: one resolution calls the organization service at most once: exactly
    when an organization is given, there are two or more candidates and the
    verification step did not single one out; the call then carries the
    organization's id and the user ids of all candidates still in play, in
    one batch. *)
Theorem at_most_one_service_call oracle self candidates w :
  ∃ calls,
    rpc_calls (resolve oracle self candidates w).2 = rpc_calls w ++ calls
    ∧ (length calls ≤ 1)%nat
    ∧ (∀ call, call ∈ calls →
         ∃ org, organization self = Some org
                ∧ call = (Organization.id org,
                          UserEmail.user_id <$> after_verified candidates))
    ∧ (calls ≠ [] ↔ is_Some (organization self)
                    ∧ (2 ≤ length candidates)%nat
                    ∧ length (VerifiedFilter candidates) ≠ 1%nat).
Proof.
  eexists. split; [apply resolve_rpc_calls|].
  destruct (organization self) as [org|].
  - case_decide as Hcond.
    + repeat split; try done; try tauto; simpl; try lia.
      intros call ->%list_elem_of_singleton. by eexists.
    + repeat split; try done; try tauto; simpl; try lia.
      intros call []%elem_of_nil.
  - repeat split; try done; simpl; try lia.
    + intros call []%elem_of_nil.
    + by intros [[? [=]] _].
Qed.

(** ** Which step concludes *)

(** X4: when the verification step does not single out a candidate and the
    organization service's answer contains exactly one of the candidates
    still in play, [resolve] returns that candidate's user out of the
    [HasOrgMembership] step, increments the by-org-membership counter and
    nothing else, whatever the primary flags are. *)
Theorem sole_member_is_chosen oracle self org candidates ms choice w :
  (2 ≤ length candidates)%nat →
  length (filter (λ ue, UserEmail.is_verified ue = true) candidates) ≠ 1%nat →
  organization self = Some org →
  oracle (Organization.id org) (UserEmail.user_id <$> after_verified candidates)
  = RpcOk ms →
  keep_members ms (after_verified candidates) = [choice] →
  resolve oracle self candidates w
  = (Return (UserEmail.user choice),
     mkWorld (metrics w ++ ["auth.email_resolution.by_org_membership"])
       (rpc_calls w ++ [(Organization.id org,
                         UserEmail.user_id <$> after_verified candidates)])).
Proof.
  intros Hlen Hv Horg Hrpc Hk. rewrite resolve_two_or_more by done.
  unfold get_steps, after_verified in *. run_step. fold (VerifiedFilter candidates) in Hv.
  destruct (VerifiedFilter candidates) as [|x [|y v]]; [|done|].
  all: run_step; by rewrite Horg, Hrpc, Hk.
Qed.

Lemma sole_member_is_chosen_witness :
  resolve (members [3; 9]) with_org7
    [ue 1 true true; ue 2 false true; ue 3 true false] w0
  = (Return (User.mk 3),
     mkWorld ["auth.email_resolution.by_org_membership"] [(7, [1; 3])]).
Proof.
  apply (sole_member_is_chosen (members [3; 9]) with_org7 org7
           [ue 1 true true; ue 2 false true; ue 3 true false]
           (MemberSummary.mk <$> [3; 9]) (ue 3 true false) w0).
  - simpl. lia.
  - vm_compute. lia.
  - reflexivity.
  - reflexivity.
  - vm_compute. reflexivity.
Defined.

(** X5: when neither the verification step nor the organization step (skipped
    or answered, not failed) singles out a candidate and exactly one of the
    candidates still in play has the address as primary, [resolve] returns
    that candidate's user out of the [IsPrimary] step and increments the
    by-primary-email counter and nothing else. *)
Theorem sole_primary_is_chosen oracle self candidates next choice w :
  (2 ≤ length candidates)%nat →
  length (filter (λ ue, UserEmail.is_verified ue = true) candidates) ≠ 1%nat →
  OrgMembershipFilter oracle (organization self) (after_verified candidates)
  = Some next →
  length next ≠ 1%nat →
  filter (λ ue, UserEmail.is_primary ue = true)
    (no_op_rule next (after_verified candidates)) = [choice] →
  ∃ w', resolve oracle self candidates w = (Return (UserEmail.user choice), w')
        ∧ metrics w' = metrics w ++ ["auth.email_resolution.by_primary_email"].
Proof.
  intros Hlen Hv Hf Hnext Hp. rewrite resolve_two_or_more by done.
  fold (VerifiedFilter candidates) in Hv.
  fold (PrimaryAddressFilter (no_op_rule next (after_verified candidates))) in Hp.
  unfold get_steps, after_verified, OrgMembershipFilter in *. run_step.
  destruct (VerifiedFilter candidates) as [|x [|y v]]; [|done|].
  all: run_step; destruct (organization self) as [org|].
  all: try (destruct (oracle _ _) as [ms|msg]; [|done]).
  all: injection Hf as <-.
  all: try (destruct (keep_members _ _) as [|p [|q l]]; [|done|]).
  all: run_step; cbn [no_op_rule] in *; rewrite Hp; by eexists.
Qed.

Lemma sole_primary_is_chosen_witness :
  ∃ w', resolve (members [1; 3]) with_org7
          [ue 1 true false; ue 2 false true; ue 3 true true] w0
        = (Return (User.mk 3), w')
        ∧ metrics w' = ["auth.email_resolution.by_primary_email"].
Proof.
  apply (sole_primary_is_chosen (members [1; 3]) with_org7
           [ue 1 true false; ue 2 false true; ue 3 true true]
           [ue 1 true false; ue 3 true true] (ue 3 true true) w0).
  - simpl. lia.
  - vm_compute. lia.
  - vm_compute. reflexivity.
  - simpl. lia.
  - vm_compute. reflexivity.
Defined.

(** ** Early return against running every step *)

Lemma no_op_rule_is_singleton next current x :
  (2 ≤ length current)%nat → no_op_rule next current = [x] → next = [x].
Proof. destruct next; simpl; [|done]. intros Hlen ->. simpl in Hlen. lia. Qed.

(** X6: returning at the first step that leaves one candidate gives the same
    user as running all three steps, each with the no-op rule, and finding
    one candidate left; exactly one of the three step counters is then
    incremented. *)
Theorem sole_survivor_is_returned oracle self candidates choice w :
  (2 ≤ length candidates)%nat →
  after_all_steps oracle (organization self) candidates = Some [choice] →
  ∃ w' name,
    resolve oracle self candidates w = (Return (UserEmail.user choice), w')
    ∧ metrics w' = metrics w ++ [name]
    ∧ name ∈ [ "auth.email_resolution.by_verification";
               "auth.email_resolution.by_org_membership";
               "auth.email_resolution.by_primary_email" ].
Proof.
  intros Hlen. rewrite resolve_two_or_more, after_all_steps_unfold by done.
  unfold get_steps, after_verified.
  destruct (OrgMembershipFilter _ _ _) as [next|] eqn:Hf; [|done].
  intros [= Hlast]. run_step.
  assert (length (VerifiedFilter candidates) ≠ 1%nat →
          (2 ≤ length (no_op_rule (VerifiedFilter candidates) candidates))%nat)
    as Hc1 by (intros ?; by apply no_op_rule_two_or_more).
  destruct (VerifiedFilter candidates) as [|x [|y v]] eqn:Hv.
  2: { rewrite no_op_rule_singleton in Hf, Hlast.
       rewrite (OrgMembershipFilter_singleton _ _ _ _ Hf) in Hlast.
       unfold PrimaryAddressFilter in Hlast.
       rewrite no_op_rule_filter_singleton in Hlast. injection Hlast as <-.
       eexists _, _. split; [done|]. split; [done|]. set_solver. }
  all: specialize (Hc1 ltac:(simpl; lia)).
  all: run_step; unfold OrgMembershipFilter in Hf.
  all: destruct (organization self) as [org|].
  all: try (destruct (oracle _ _) as [ms|msg]; [|done]).
  all: injection Hf as <-.
  all: try (destruct (keep_members _ _) as [|p [|q l]] eqn:Hk).
  all: cbn [no_op_rule] in *.
  all: try (unfold PrimaryAddressFilter in Hlast;
            rewrite no_op_rule_filter_singleton in Hlast; injection Hlast as <-;
            eexists _, _; split; [done|]; split; [done|]; set_solver).
  all: apply no_op_rule_is_singleton in Hlast; [|done || (simpl; lia)].
  all: run_step; rewrite Hlast.
  all: eexists _, _; split; [done|]; split; [done|]; set_solver.
Qed.

Lemma sole_survivor_is_returned_witness :
  ∃ w' name,
    resolve (members [1; 3]) with_org7
      [ue 1 true false; ue 2 false true; ue 3 true true] w0
    = (Return (User.mk 3), w')
    ∧ metrics w' = [name]
    ∧ name ∈ [ "auth.email_resolution.by_verification";
               "auth.email_resolution.by_org_membership";
               "auth.email_resolution.by_primary_email" ].
Proof.
  apply (sole_survivor_is_returned (members [1; 3]) with_org7
           [ue 1 true false; ue 2 false true; ue 3 true true] (ue 3 true true) w0).
  - simpl. lia.
  - vm_compute. reflexivity.
Defined.

(** ** Narrowing is kept *)

Lemma later_steps_only_narrow oracle self step candidates w next w' :
  step ∈ [HasOrgMembership oracle; IsPrimary] →
  apply step self candidates w = (Return next, w') →
  next `sublist_of` candidates.
Proof.
  intros Hin. apply (get_steps_apply_sublist oracle). unfold get_steps. by right.
Qed.

(** X7: once two or more candidates are given and at least one of them is
    verified, the unverified ones are out for good: a user that [resolve]
    returns is the user of a verified candidate, and the users an
    [AmbiguousUserFromEmail] names are users of verified candidates only. *)
Theorem verified_candidates_take_precedence oracle self candidates w :
  (2 ≤ length candidates)%nat →
  filter (λ ue, UserEmail.is_verified ue = true) candidates ≠ [] →
  match (resolve oracle self candidates w).1 with
  | Return u =>
      ∃ choice, choice ∈ candidates ∧ UserEmail.is_verified choice = true
                ∧ UserEmail.user choice = u
  | Raise (AmbiguousUserFromEmail _ users) =>
      ∃ remaining, users = UserEmail.user <$> remaining
                   ∧ remaining `sublist_of` candidates
                   ∧ Forall (λ ue, UserEmail.is_verified ue = true) remaining
  | Raise _ => True
  end.
Proof.
  intros Hlen Hsome. rewrite resolve_two_or_more by done.
  assert (∀ x, x ∈ VerifiedFilter candidates →
               x ∈ candidates ∧ UserEmail.is_verified x = true) as Hver.
  { intros x [? ?]%list_elem_of_filter. done. }
  fold (VerifiedFilter candidates) in Hsome.
  unfold get_steps. run_step.
  destruct (VerifiedFilter candidates) as [|x [|y v]] eqn:Hv; [done| |].
  - simpl. exists x. destruct (Hver x) as [? ?]; [by left|]. done.
  - cbn [no_op_rule].
    destruct (for_steps _ _ _ _) as [[[u|c]|e] w1] eqn:Hloop; simpl.
    + apply for_steps_chooses_member in Hloop as (choice & Hin & <-);
        [|intros ?????; apply later_steps_only_narrow].
      exists choice. by destruct (Hver choice Hin).
    + apply for_steps_remaining in Hloop as [Hsub _];
        [|intros ?????; apply later_steps_only_narrow].
      exists c. split; [done|]. split.
      * etrans; [done|]. rewrite <-Hv. apply sublist_filter.
      * apply Forall_forall. intros z Hz. apply Hver.
        by eapply sublist_subseteq.
    + by apply org_and_primary_raises in Hloop as (msg & -> & _).
Qed.

Lemma verified_candidates_take_precedence_witness :
  ∃ choice, choice ∈ [ue 1 true false; ue 2 false true; ue 3 true false]
            ∧ UserEmail.is_verified choice = true
            ∧ UserEmail.user choice = User.mk 3.
Proof.
  apply (verified_candidates_take_precedence (members [2; 3]) with_org7
           [ue 1 true false; ue 2 false true; ue 3 true false] w0).
  - simpl. lia.
  - vm_compute. discriminate.
Defined.

(** ** The entry point *)

Lemma resolve_returns_member oracle self candidates w u w' :
  resolve oracle self candidates w = (Return u, w') →
  ∃ choice, choice ∈ candidates ∧ UserEmail.user choice = u.
Proof.
  destruct candidates as [|a [|b rest]]; [done| |].
  - intros [= <- _]. exists a. split; [by left|done].
  - rewrite resolve_two_or_more by (simpl; lia).
    destruct (for_steps _ _ _ _) as [[[u1|c]|e] w1] eqn:Hloop; [|done..].
    intros [= -> _]. eapply for_steps_chooses_member; [|done].
    intros step candidates w2 next w3. apply get_steps_apply_sublist.
Qed.

(** X8: [resolve_email_to_user] returns [None] exactly when the query finds no
    candidate, and then does nothing else; a user it returns is the user of
    one of the candidates found; a sole candidate's user is returned as it is,
    verified or not, with no counter incremented and no service call. *)
Theorem entry_point_outcomes oracle store email org w :
  (∀ w', resolve_email_to_user oracle store email org w = (Return None, w')
         ↔ store email = [] ∧ w' = w)
  ∧ (∀ u w', resolve_email_to_user oracle store email org w = (Return (Some u), w') →
             ∃ choice, choice ∈ store email ∧ UserEmail.user choice = u)
  ∧ (∀ only, store email = [only] →
             resolve_email_to_user oracle store email org w
             = (Return (Some (UserEmail.user only)), w)).
Proof.
  split; [|split].
  - intros w'. split.
    + destruct (store email) as [|a l] eqn:Hs.
      * rewrite resolve_email_to_user_none by done. by intros [= <-].
      * rewrite resolve_email_to_user_some by (by rewrite Hs). rewrite Hs.
        by destruct (resolve _ _ _ _) as [[u|e] w1].
    + intros [Hs ->]. by apply resolve_email_to_user_none.
  - intros u w'. destruct (store email) as [|a l] eqn:Hs.
    + by rewrite resolve_email_to_user_none.
    + rewrite resolve_email_to_user_some by (by rewrite Hs). rewrite Hs.
      destruct (resolve _ _ _ _) as [[u1|e] w1] eqn:Hr; [|done].
      intros [= -> _]. by eapply resolve_returns_member.
  - intros only Hs. rewrite resolve_email_to_user_some by (by rewrite Hs).
    by rewrite Hs.
Qed.

Lemma entry_point_outcomes_witness :
  (∃ choice, choice ∈ [ue 1 true false; ue 2 true true]
             ∧ UserEmail.user choice = User.mk 2)
  ∧ resolve_email_to_user unavailable (stored [ue 5 false false]) "a@b.c"
      (Some org7) w0
    = (Return (Some (User.mk 5)), w0).
Proof.
  split.
  - apply (proj1 (proj2 (entry_point_outcomes unavailable
                           (stored [ue 1 true false; ue 2 true true])
                           "a@b.c" None w0))
             (User.mk 2) (counted "auth.email_resolution.by_primary_email" w0)).
    reflexivity.
  - apply (proj2 (proj2 (entry_point_outcomes unavailable
                           (stored [ue 5 false false]) "a@b.c" (Some org7) w0))
             (ue 5 false false)).
    reflexivity.
Defined.

(** ** The order of the candidates *)

Lemma permuted_cases {A} (l1 l2 : list A) :
  l1 ≡ₚ l2 →
  (l1 = [] ∧ l2 = [])
  ∨ (∃ x, l1 = [x] ∧ l2 = [x])
  ∨ (∃ a b l a' b' l', l1 = a :: b :: l ∧ l2 = a' :: b' :: l').
Proof.
  intros Hp. pose proof (Permutation_length Hp) as Hlen.
  destruct l1 as [|a [|b l]].
  - left. by apply Permutation_nil_l in Hp as <-.
  - right. left. exists a. by apply Permutation_singleton_l in Hp as <-.
  - right. right. destruct l2 as [|a' [|b' l']]; [done..|]. by eexists _, _, _, _, _, _.
Qed.

Lemma no_op_rule_Permutation next1 next2 current1 current2 :
  next1 ≡ₚ next2 → current1 ≡ₚ current2 →
  no_op_rule next1 current1 ≡ₚ no_op_rule next2 current2.
Proof.
  intros Hn Hc.
  destruct (permuted_cases _ _ Hn)
    as [[-> ->] | [(x & -> & ->) | (a & b & l & a' & b' & l' & -> & ->)]]; done.
Qed.

Section permuted.
Context (self : _EmailResolver).

Lemma loop_body_Permutation step c1 c2 w1 w2 :
  order_blind self step →
  c1 ≡ₚ c2 → metrics w1 = metrics w2 →
  agree_up_to_order same_or_permuted
    (loop_body self step c1 w1) (loop_body self step c2 w2).
Proof.
  intros [Happly [name Hhook]] Hc Hw. specialize (Happly c1 c2 w1 w2 Hc Hw).
  unfold loop_body, bind, agree_up_to_order in *.
  destruct (apply step self c1 w1) as [[n1|e1] w1'],
           (apply step self c2 w2) as [[n2|e2] w2']; simpl in *; try tauto.
  destruct Happly as [Hm Hn].
  destruct (permuted_cases _ _ Hn)
    as [[-> ->] | [(x & -> & ->) | (a & b & l & a' & b' & l' & -> & ->)]].
  - done.
  - rewrite !Hhook. simpl. by rewrite Hm.
  - done.
Qed.

Lemma for_steps_Permutation steps c1 c2 w1 w2 :
  Forall (order_blind self) steps →
  c1 ≡ₚ c2 → metrics w1 = metrics w2 →
  agree_up_to_order same_or_permuted
    (for_steps self steps c1 w1) (for_steps self steps c2 w2).
Proof.
  intros Hsteps. revert c1 c2 w1 w2.
  induction Hsteps as [|step steps Hstep _ IH]; intros c1 c2 w1 w2 Hc Hw.
  - done.
  - rewrite !for_steps_step.
    pose proof (loop_body_Permutation step c1 c2 w1 w2 Hstep Hc Hw) as Hbody.
    unfold agree_up_to_order in Hbody.
    destruct (loop_body self step c1 w1) as [[[u1|n1]|e1] w1'],
             (loop_body self step c2 w2) as [[[u2|n2]|e2] w2'];
      simpl in Hbody; try tauto.
    all: first [exact Hbody | apply IH; tauto].
Qed.
End permuted.

Lemma IsVerified_order_blind self : order_blind self IsVerified.
Proof.
  split; [|by eexists]. intros c1 c2 w1 w2 Hc Hw.
  split; [done|]. simpl. by apply filter_Permutation.
Qed.

Lemma IsPrimary_order_blind self : order_blind self IsPrimary.
Proof.
  split; [|by eexists]. intros c1 c2 w1 w2 Hc Hw.
  split; [done|]. simpl. by apply filter_Permutation.
Qed.

Lemma HasOrgMembership_order_blind oracle self :
  order_insensitive oracle → order_blind self (HasOrgMembership oracle).
Proof.
  intros Horacle. split; [|by eexists]. intros c1 c2 w1 w2 Hc Hw.
  unfold agree_up_to_order. simpl.
  destruct (organization self) as [org|]; [|by unfold ret; simpl].
  unfold bind, organization_service_get_member_summaries_by_ids.
  specialize (Horacle (Organization.id org)
                (UserEmail.user_id <$> c1) (UserEmail.user_id <$> c2)
                (fmap_Permutation _ _ _ Hc)).
  destruct (oracle _ (UserEmail.user_id <$> c1)) as [ms1|msg1],
           (oracle _ (UserEmail.user_id <$> c2)) as [ms2|msg2]; try done.
  - simpl. split; [done|]. rewrite Horacle. by apply filter_Permutation.
  - simpl. by subst.
Qed.

(** X9: as long as the organization service does not care about the order of
    the ids it is asked about, the order of the candidates does not matter to
    [resolve]: the same user is returned or the same exception raised, an
    ambiguity naming the same users up to order, and the same counters are
    incremented. *)
Theorem candidate_order_is_irrelevant oracle self candidates candidates' w :
  order_insensitive oracle →
  candidates ≡ₚ candidates' →
  same_resolution (resolve oracle self candidates w)
    (resolve oracle self candidates' w).
Proof.
  intros Horacle Hc.
  destruct (permuted_cases _ _ Hc)
    as [[-> ->] | [(x & -> & ->) | (a & b & l & a' & b' & l' & -> & ->)]];
    [done..|].
  rewrite !resolve_two_or_more by (simpl; lia).
  assert (Forall (order_blind self) (get_steps oracle self)) as Hsteps.
  { unfold get_steps.
    apply Forall_cons_2; [apply IsVerified_order_blind|].
    apply Forall_cons_2; [by apply HasOrgMembership_order_blind|].
    apply Forall_cons_2; [apply IsPrimary_order_blind|]. apply Forall_nil_2. }
  pose proof (for_steps_Permutation self _ _ _ w w Hsteps Hc eq_refl) as Hloop.
  unfold agree_up_to_order in Hloop. unfold same_resolution.
  destruct (for_steps _ _ (a :: _) _) as [[[u1|n1]|e1] w1],
           (for_steps _ _ (a' :: _) _) as [[[u2|n2]|e2] w2];
    simpl in *; try tauto.
  - destruct Hloop as [-> Hn]. split; [done|]. split; [done|].
    by apply fmap_Permutation.
  - destruct Hloop as [Hm <-]. split; [done|]. by destruct e1.
Qed.

Lemma candidate_order_is_irrelevant_witness :
  same_resolution
    (resolve (members [3; 2]) with_org7
       [ue 1 false false; ue 2 false false; ue 3 false true] w0)
    (resolve (members [3; 2]) with_org7
       [ue 3 false true; ue 1 false false; ue 2 false false] w0).
Proof.
  apply (candidate_order_is_irrelevant (members [3; 2]) with_org7
           [ue 1 false false; ue 2 false false; ue 3 false true]
           [ue 3 false true; ue 1 false false; ue 2 false false] w0).
  - intros organization_id ids ids' _. reflexivity.
  - symmetry. apply Permutation_cons_append with (l := [_; _]).
Defined.

(** * The replay segment serializer *)

(** X10: the dict [serialize] returns determines the segment's replay id,
    segment id, project id and date, whatever [attrs] and [user] were: the
    project id, although rendered with [str], is not confused with another. *)
Theorem serialize_determines_segment {datetime Attrs Usr Attrs' Usr' : Type}
    (obj obj' : ReplaySerializer.ReplayRecordingSegment (datetime := datetime))
    (attrs : Attrs) (user : Usr) (attrs' : Attrs') (user' : Usr') :
  ReplaySerializer.serialize obj attrs user
  = ReplaySerializer.serialize obj' attrs' user' ↔ obj = obj'.
Proof.
  split; [|by intros ->].
  destruct obj, obj'. unfold ReplaySerializer.serialize. simpl.
  intros [= -> -> Hp ->]. by apply (inj pretty) in Hp as ->.
Qed.

Example serialize_example :
  ReplaySerializer.serialize
    (ReplaySerializer.mk "5e1d25b9" 3 4507 1718000000) () ()
  = [ ("replayId", ReplaySerializer.Str "5e1d25b9");
      ("segmentId", ReplaySerializer.Int 3);
      ("projectId", ReplaySerializer.Str "4507");
      ("dateAdded", ReplaySerializer.Date 1718000000) ].
Proof. reflexivity. Qed.

(** * The Slack message of a metric alert *)

Section slack.
Import SlackIncidents.
Context {imports : Imports}.

Lemma shows_notes_true self :
  shows_notes self = true
  ↔ (∃ notes, description (alert_rule (alert_rule_trigger (action self)))
              = Some notes ∧ notes ≠ "")
    ∧ features_has "organizations:slack-metric-alert-description"
        (incident_organization (incident self)) = true
    ∧ new_status self ≠ CLOSED.
Proof.
  unfold shows_notes, truthy. rewrite !andb_true_iff, negb_true_iff.
  rewrite bool_decide_eq_false.
  destruct (description _) as [notes|].
  - rewrite bool_decide_eq_true. split.
    + intros [[? ?] ?]. eauto.
    + intros [(? & [= <-] & ?) [? ?]]. done.
  - split; [by intros [[? ?] ?]|by intros [(? & ? & ?) _]].
Qed.

(** X11: the message of an incident that is being closed never carries the
    notes block, whatever the alert rule's description and the feature flags
    are: its blocks are the incident text and, when a chart url is given, the
    chart. *)
Theorem closed_incident_has_no_notes (self : SlackIncidentsMessageBuilder) :
  new_status self = CLOSED →
  build self
  = _build_blocks
      (get_markdown_block (incident_text self)
       :: match chart_url self with
          | Some url =>
              if bool_decide (url ≠ "")
              then [get_image_block url "Metric Alert Chart"]
              else []
          | None => []
          end)
      (fallback_text self) (color self).
Proof.
  intros Hclosed. unfold build.
  assert (shows_notes self = false) as ->.
  { apply not_true_is_false. rewrite shows_notes_true. tauto. }
  destruct (chart_url self) as [url|]; [|done]. by case_bool_decide.
Qed.

(** X12: [build] hands [_build_blocks] between one and three blocks in a fixed
    order: first the incident text, always; then the notes block if the alert
    rule has a non-empty description, the description flag is on for the
    incident's organization and the status is not closed, and no such block
    otherwise; last the chart image if a non-empty chart url was given, and no
    such block otherwise. *)
Theorem build_blocks_shape (self : SlackIncidentsMessageBuilder) :
  let rule := alert_rule (alert_rule_trigger (action self)) in
  let flag := features_has "organizations:slack-metric-alert-description"
                (incident_organization (incident self)) in
  ∃ notes chart,
    build self
    = _build_blocks (get_markdown_block (incident_text self) :: notes ++ chart)
        (fallback_text self) (color self)
    ∧ (∀ text, description rule = Some text → text ≠ "" → flag = true →
               new_status self ≠ CLOSED →
               notes = [get_markdown_block ("*Notes*: " +:+ text)])
    ∧ (description rule = None ∨ description rule = Some "" ∨ flag = false
       ∨ new_status self = CLOSED →
       notes = [])
    ∧ (∀ url, chart_url self = Some url → url ≠ "" →
              chart = [get_image_block url "Metric Alert Chart"])
    ∧ (chart_url self = None ∨ chart_url self = Some "" → chart = [])
    ∧ (1 ≤ length (get_markdown_block (incident_text self) :: notes ++ chart) ≤ 3)%nat.
Proof.
  cbv zeta. unfold build. pose proof (shows_notes_true self) as Hnotes.
  set (chart := match chart_url self with
                | Some url =>
                    if bool_decide (url ≠ "")
                    then [get_image_block url "Metric Alert Chart"] else []
                | None => []
                end).
  assert ((∀ url, chart_url self = Some url → url ≠ "" →
                  chart = [get_image_block url "Metric Alert Chart"])
          ∧ (chart_url self = None ∨ chart_url self = Some "" → chart = [])
          ∧ (length chart ≤ 1)%nat) as (Hc1 & Hc2 & Hc3).
  { subst chart. destruct (chart_url self) as [url|]; [case_bool_decide|].
    - repeat split; simpl; try lia.
      + by intros ? [= <-] _.
      + by intros [[=]|[= ->]].
    - repeat split; simpl; try lia.
      + by intros ? [= <-] ?.
    - repeat split; simpl; try lia. by intros ? [=]. }
  destruct (shows_notes self).
  - destruct (proj1 Hnotes eq_refl) as ((text & Hd & Htext) & Hflag & Hopen).
    rewrite Hd. simpl default.
    exists [get_markdown_block ("*Notes*: " +:+ text)], chart.
    split; [by destruct (chart_url self) as [url|]; [case_bool_decide|]|].
    split; [by intros ? [= <-] _ _ _|].
    split; [intros [[=]|[[= ->]|[?|?]]]; congruence|].
    repeat split; try done; simpl; lia.
  - exists [], chart.
    split; [by destruct (chart_url self) as [url|]; [case_bool_decide|]|].
    split.
    { intros text Hd Htext Hflag Hopen. exfalso.
      assert (false = true) as [=]. apply Hnotes. eauto. }
    repeat split; try done; simpl; lia.
Qed.
End slack.

Lemma closed_incident_has_no_notes_witness :
  SlackIncidents.build closed_with_notes
  = ([ ("mrkdwn", SlackIncidents.incident_text closed_with_notes);
       ("image", "https://chart.example/1.png") ],
     "<https://sentry.example/alerts/1|*CPU*>", Some "#FFC227").
Proof.
  apply (closed_incident_has_no_notes (imports := plain_imports) closed_with_notes).
  reflexivity.
Defined.

Lemma build_blocks_shape_witness :
  SlackIncidents.build open_with_notes
  = ([ ("mrkdwn", SlackIncidents.incident_text open_with_notes);
       ("mrkdwn", "*Notes*: call the owner");
       ("image", "https://chart.example/1.png") ],
     "<https://sentry.example/alerts/1|*CPU*>", Some "#FFC227").
Proof.
  destruct (build_blocks_shape (imports := plain_imports) open_with_notes)
    as (notes & chart & -> & Hnotes & _ & Hchart & _).
  rewrite (Hnotes "call the owner") by done.
  rewrite (Hchart "https://chart.example/1.png") by done.
  reflexivity.
Defined.
